(** * Token streaming contract ([SPL/contracts/stream copy.clar])

    A shallow embedding of the Clarity contract [stream]: the stream
    table, the vesting calculator, the consent digest and the five public
    entry points, together with the Clarity built-ins they call
    (checked [uint] arithmetic, [stx-transfer?], [to-consensus-buff?]). *)

From Stdlib Require Import NArith Lia List.
From Stdlib.Strings Require Import Byte String.
From stdpp Require Import base decidable countable gmap strings list.

Local Open Scope N_scope.

(** ** Clarity built-ins *)

(** [uint] is an unsigned 128-bit integer.  Arithmetic that leaves the
    range does not wrap: it raises a runtime error that aborts the
    transaction. *)
Definition UINT_MAX : N := 2 ^ 128 - 1.

Inductive fault := ArithmeticOverflow | ArithmeticUnderflow.

(** Result of evaluating an expression that can only end in a value or in
    a runtime error. *)
Inductive rt (A : Type) :=
| Val (v : A)
| Fault (f : fault).
Arguments Val {A} v.
Arguments Fault {A} f.

Definition rt_bind {A B} (m : rt A) (k : A → rt B) : rt B :=
  match m with
  | Val v => k v
  | Fault f => Fault f
  end.

Definition uint_add (a b : N) : rt N :=
  if a + b <=? UINT_MAX then Val (a + b) else Fault ArithmeticOverflow.

Definition uint_sub (a b : N) : rt N :=
  if b <=? a then Val (a - b) else Fault ArithmeticUnderflow.

Definition uint_mul (a b : N) : rt N :=
  if a * b <=? UINT_MAX then Val (a * b) else Fault ArithmeticOverflow.

(** A principal is a standard address (version byte and 20-byte hash) or a
    contract identifier (the deployer's address and a contract name). *)
Inductive principal :=
| Standard (version hash160 : N)
| Contract (version hash160 : N) (name : string).

Global Instance principal_eq_dec : EqDecision principal.
Proof. solve_decision. Defined.

Global Instance principal_countable : Countable principal.
Proof.
  refine (inj_countable'
    (λ p, match p with
          | Standard v h => inl (v, h)
          | Contract v h n => inr (v, h, n)
          end)
    (λ x, match x with
          | inl (v, h) => Standard v h
          | inr (v, h, n) => Contract v h n
          end) _).
  by intros [].
Defined.

(** *** Consensus serialization ([to-consensus-buff?]) *)

Global Instance byte_eq_decision : EqDecision byte := Byte.byte_eq_dec.

Definition byte_of_N (n : N) : byte :=
  match Byte.of_N (n mod 256) with
  | Some b => b
  | None => "000"%byte
  end.

(** [w] bytes, most significant first. *)
Fixpoint be_bytes (w : nat) (x : N) : list byte :=
  match w with
  | O => []
  | S w' => be_bytes w' (x / 256) ++ [byte_of_N x]
  end.

Definition string_len (s : string) : N := N.of_nat (String.length s).

Definition serialize_uint (u : N) : list byte :=
  "001"%byte :: be_bytes 16 u.

Definition serialize_principal (p : principal) : list byte :=
  match p with
  | Standard v h => "005"%byte :: be_bytes 1 v ++ be_bytes 20 h
  | Contract v h name =>
      "006"%byte :: be_bytes 1 v ++ be_bytes 20 h
        ++ be_bytes 1 (string_len name) ++ list_byte_of_string name
  end.

(** A tuple is its type byte, the number of fields on four bytes, then the
    fields in the order of their names, each name length-prefixed. *)
Definition tuple_header (fields : N) : list byte :=
  "012"%byte :: be_bytes 4 fields.

Definition tuple_key (k : string) : list byte :=
  be_bytes 1 (string_len k) ++ list_byte_of_string k.

(** An encoder is self-delimiting on the values satisfying [wf] when the
    encoded value can be read back from the front of any byte string that
    starts with its encoding. *)
Definition self_delimiting {A} (wf : A → Prop) (f : A → list byte) : Prop :=
  ∀ a a' r r', wf a → wf a' → f a ++ r = f a' ++ r' → a = a' ∧ r = r'.

(** ** Data model *)

Record timeframe_t := {
  start_block : N;
  stop_block : N;
}.

Record stream_t := {
  sender : principal;
  recipient : principal;
  balance : N;
  withdrawn_balance : N;
  payment_per_block : N;
  timeframe : timeframe_t;
}.

Global Instance timeframe_eq_dec : EqDecision timeframe_t.
Proof. solve_decision. Defined.

Global Instance stream_eq_dec : EqDecision stream_t.
Proof. solve_decision. Defined.

Definition serialize_timeframe (tf : timeframe_t) : list byte :=
  tuple_header 2
    ++ tuple_key "start-block" ++ serialize_uint (start_block tf)
    ++ tuple_key "stop-block" ++ serialize_uint (stop_block tf).

Definition serialize_stream (s : stream_t) : list byte :=
  tuple_header 6
    ++ tuple_key "balance" ++ serialize_uint (balance s)
    ++ tuple_key "payment-per-block" ++ serialize_uint (payment_per_block s)
    ++ tuple_key "recipient" ++ serialize_principal (recipient s)
    ++ tuple_key "sender" ++ serialize_principal (sender s)
    ++ tuple_key "timeframe" ++ serialize_timeframe (timeframe s)
    ++ tuple_key "withdrawn-balance" ++ serialize_uint (withdrawn_balance s).

(** Contract state: the [streams] map, the [latest-stream-id] variable and
    the STX balances of the chain the contract moves funds on. *)
Record state := {
  streams : gmap N stream_t;
  latest_stream_id : N;
  stx : gmap principal N;
}.

(** What a call can observe of its context. *)
Record env := {
  tx_sender : principal;
  contract_caller : principal;
  contract_self : principal;
  stacks_block_height : N;
}.

Definition ERR_UNAUTHORIZED : N := 0.
Definition ERR_INVALID_SIGNATURE : N := 1.
Definition ERR_STREAM_STILL_ACTIVE : N := 2.
Definition ERR_INVALID_STREAM_ID : N := 3.
Definition ERR_INVALID_AMOUNT : N := 4.
Definition ERR_INVALID_TIMEFRAME : N := 5.

(** ** Execution of public functions *)

Inductive outcome (A : Type) :=
| Success (v : A)
| Failure (code : N)
| RuntimeError (f : fault).
Arguments Success {A} v.
Arguments Failure {A} code.
Arguments RuntimeError {A} f.

(** A function body threads the state; the state component of a failed
    run is the state at the point of failure. *)
Definition M (A : Type) : Type := state → outcome A * state.

Definition ret {A} (v : A) : M A := λ st, (Success v, st).

Definition bind {A B} (m : M A) (k : A → M B) : M B :=
  λ st, match m st with
        | (Success v, st') => k v st'
        | (Failure c, st') => (Failure c, st')
        | (RuntimeError f, st') => (RuntimeError f, st')
        end.

Global Instance M_ret : MRet M := @ret.
Global Instance M_bind : MBind M := λ A B k m, bind m k.
Global Instance rt_ret : MRet rt := @Val.
Global Instance rt_mbind : MBind rt := λ A B k m, rt_bind m k.

Definition err {A} (code : N) : M A := λ st, (Failure code, st).

Definition lift {A} (m : rt A) : M A :=
  λ st, match m with
        | Val v => (Success v, st)
        | Fault f => (RuntimeError f, st)
        end.

(** [(asserts! cond code)] *)
Definition asserts (cond : bool) (code : N) : M unit :=
  if cond then ret () else err code.

(** [(unwrap! (map-get? streams id) code)] *)
Definition get_stream_or (stream_id : N) (code : N) : M stream_t :=
  λ st, match streams st !! stream_id with
        | Some s => (Success s, st)
        | None => (Failure code, st)
        end.

Definition map_set_streams (stream_id : N) (s : stream_t) : M unit :=
  λ st, (Success (),
         {| streams := <[stream_id := s]> (streams st);
            latest_stream_id := latest_stream_id st;
            stx := stx st |}).

Definition var_get_latest_stream_id : M N :=
  λ st, (Success (latest_stream_id st), st).

Definition var_set_latest_stream_id (n : N) : M unit :=
  λ st, (Success (),
         {| streams := streams st; latest_stream_id := n; stx := stx st |}).

(** A public function commits its effects only when it returns [ok]; an
    [err] response or a runtime error rolls every effect back. *)
Definition public {A} (body : M A) : M A :=
  λ st, match body st with
        | (Success v, st') => (Success v, st')
        | (o, _) => (o, st)
        end.

(** *** [stx-transfer?] *)

Definition stx_balance (l : gmap principal N) (p : principal) : N :=
  match l !! p with
  | Some b => b
  | None => 0
  end.

(** [(stx-transfer? amount from to)] evaluated while [cur_sender] is the
    current [tx-sender]: [(err u3)] for a zero amount, [(err u2)] when
    both ends are the same principal, [(err u4)] when [from] is not the
    current [tx-sender], [(err u1)] when [from] cannot pay. *)
Definition stx_transfer (amount : N) (from to cur_sender : principal)
    (l : gmap principal N) : N + gmap principal N :=
  if amount =? 0 then inl 3
  else if decide (from = to) then inl 2
  else if decide (from = cur_sender) then
    if amount <=? stx_balance l from then
      let l1 := <[from := stx_balance l from - amount]> l in
      inr (<[to := stx_balance l1 to + amount]> l1)
    else inl 1
  else inl 4.

(** [(try! (stx-transfer? amount from to))] *)
Definition try_stx_transfer (amount : N) (from to cur_sender : principal)
    : M unit :=
  λ st, match stx_transfer amount from to cur_sender (stx st) with
        | inl code => (Failure code, st)
        | inr l' =>
            (Success (),
             {| streams := streams st;
                latest_stream_id := latest_stream_id st;
                stx := l' |})
        end.

(** ** The contract *)

(** The cryptographic built-ins the contract calls:
    [sha256], [secp256k1-recover?] (here [None] for an [err] response) and
    [principal-of?]. *)
Class Crypto := {
  sha256 : list byte → list byte;
  secp256k1_recover : list byte → list byte → option (list byte);
  principal_of : list byte → option principal;
}.

(** [(merge stream { balance: b })] *)
Definition set_balance (s : stream_t) (b : N) : stream_t :=
  {| sender := sender s; recipient := recipient s; balance := b;
     withdrawn_balance := withdrawn_balance s;
     payment_per_block := payment_per_block s; timeframe := timeframe s |}.

(** [(merge stream { withdrawn-balance: w })] *)
Definition set_withdrawn_balance (s : stream_t) (w : N) : stream_t :=
  {| sender := sender s; recipient := recipient s; balance := balance s;
     withdrawn_balance := w;
     payment_per_block := payment_per_block s; timeframe := timeframe s |}.

(** [(merge stream { payment-per-block: p, timeframe: t })] *)
Definition set_details (s : stream_t) (p : N) (t : timeframe_t) : stream_t :=
  {| sender := sender s; recipient := recipient s; balance := balance s;
     withdrawn_balance := withdrawn_balance s;
     payment_per_block := p; timeframe := t |}.

(** [(as-contract tx-sender)] *)
Definition as_contract_tx_sender (e : env) : principal := contract_self e.

(** The record [stream-to] builds for a new stream. *)
Definition new_stream (e : env) (recipient_ : principal) (initial_balance : N)
    (timeframe_ : timeframe_t) (payment_per_block_ : N) : stream_t :=
  {| sender := contract_caller e;
     recipient := recipient_;
     balance := initial_balance;
     withdrawn_balance := 0;
     payment_per_block := payment_per_block_;
     timeframe := timeframe_ |}.

Definition stream_to (e : env) (recipient_ : principal) (initial_balance : N)
    (timeframe_ : timeframe_t) (payment_per_block_ : N) : M N :=
  public (
    let stream := new_stream e recipient_ initial_balance timeframe_
                    payment_per_block_ in
    current_stream_id ← var_get_latest_stream_id;
    asserts (start_block (timeframe stream) <? stop_block (timeframe stream))
      ERR_INVALID_TIMEFRAME;;
    asserts (0 <? initial_balance) ERR_INVALID_AMOUNT;;
    try_stx_transfer initial_balance (contract_caller e)
      (as_contract_tx_sender e) (tx_sender e);;
    map_set_streams current_stream_id stream;;
    next ← lift (uint_add current_stream_id 1);
    var_set_latest_stream_id next;;
    mret current_stream_id).

Definition refuel (e : env) (stream_id amount : N) : M N :=
  public (
    stream ← get_stream_or stream_id ERR_INVALID_STREAM_ID;
    asserts (bool_decide (contract_caller e = sender stream)) ERR_UNAUTHORIZED;;
    asserts (0 <? amount) ERR_INVALID_AMOUNT;;
    try_stx_transfer amount (contract_caller e)
      (as_contract_tx_sender e) (tx_sender e);;
    new_balance ← lift (uint_add (balance stream) amount);
    map_set_streams stream_id (set_balance stream new_balance);;
    mret amount).

Definition calculate_block_delta (e : env) (tf : timeframe_t) : rt N :=
  let start := start_block tf in
  let stop := stop_block tf in
  if stacks_block_height e <=? start then Val 0
  else if stacks_block_height e <? stop
       then uint_sub (stacks_block_height e) start
       else uint_sub stop start.

Definition balance_of (e : env) (st : state) (stream_id : N)
    (who : principal) : rt N :=
  match streams st !! stream_id with
  | None => Val 0
  | Some stream =>
      block_delta ← calculate_block_delta e (timeframe stream);
      recipient_balance ← uint_mul block_delta (payment_per_block stream);
      if bool_decide (who = recipient stream)
      then uint_sub recipient_balance (withdrawn_balance stream)
      else if bool_decide (who = sender stream)
           then uint_sub (balance stream) recipient_balance
           else Val 0
  end.

(** Read-only call from inside a public function. *)
Definition call_balance_of (e : env) (stream_id : N) (who : principal) : M N :=
  λ st, lift (balance_of e st stream_id who) st.

Definition withdraw (e : env) (stream_id : N) : M N :=
  public (
    stream ← get_stream_or stream_id ERR_INVALID_STREAM_ID;
    balance_ ← call_balance_of e stream_id (contract_caller e);
    asserts (bool_decide (contract_caller e = recipient stream))
      ERR_UNAUTHORIZED;;
    new_withdrawn ← lift (uint_add (withdrawn_balance stream) balance_);
    map_set_streams stream_id (set_withdrawn_balance stream new_withdrawn);;
    try_stx_transfer balance_ (contract_self e) (recipient stream)
      (contract_self e);;
    mret balance_).

Definition refund (e : env) (stream_id : N) : M N :=
  public (
    stream ← get_stream_or stream_id ERR_INVALID_STREAM_ID;
    balance_ ← call_balance_of e stream_id (sender stream);
    asserts (bool_decide (contract_caller e = sender stream)) ERR_UNAUTHORIZED;;
    asserts (stop_block (timeframe stream) <? stacks_block_height e)
      ERR_STREAM_STILL_ACTIVE;;
    new_balance ← lift (uint_sub (balance stream) balance_);
    map_set_streams stream_id (set_balance stream new_balance);;
    try_stx_transfer balance_ (contract_self e) (sender stream)
      (contract_self e);;
    mret balance_).

(** The bytes [hash-stream] feeds to [sha256]: the stored record, then
    the proposed rate, then the proposed timeframe. *)
Definition hash_stream_msg (s : stream_t) (new_payment_per_block : N)
    (new_timeframe : timeframe_t) : list byte :=
  (serialize_stream s ++ serialize_uint new_payment_per_block)
    ++ serialize_timeframe new_timeframe.

(** [(sha256 0)]: the integer zero as sixteen bytes. *)
Definition int_zero_bytes : list byte := repeat "000"%byte 16.

Definition hash_stream `{Crypto} (st : state) (stream_id : N)
    (new_payment_per_block : N) (new_timeframe : timeframe_t) : list byte :=
  match streams st !! stream_id with
  | None => sha256 int_zero_bytes
  | Some stream =>
      sha256 (hash_stream_msg stream new_payment_per_block new_timeframe)
  end.

(** The bytes signed to consent to proposal [(p, t)] on stream
    [stream_id], when the stream exists. *)
Definition consent_message (st : state) (stream_id p : N) (t : timeframe_t)
    : option (list byte) :=
  (λ s, hash_stream_msg s p t) <$> streams st !! stream_id.

Definition validate_signature `{Crypto} (hash signature : list byte)
    (signer : principal) : bool :=
  match secp256k1_recover hash signature with
  | None => false
  | Some pubkey => bool_decide (principal_of pubkey = Some signer)
  end.

Definition update_details `{Crypto} (e : env) (stream_id : N)
    (payment_per_block_ : N) (timeframe_ : timeframe_t)
    (signer : principal) (signature : list byte) : M bool :=
  public (
    stream ← get_stream_or stream_id ERR_INVALID_STREAM_ID;
    valid ← (λ st, (Success (validate_signature
                       (hash_stream st stream_id payment_per_block_ timeframe_)
                       signature signer), st));
    asserts valid ERR_INVALID_SIGNATURE;;
    asserts
      ((bool_decide (sender stream = contract_caller e)
          && bool_decide (recipient stream = signer))
       || (bool_decide (sender stream = signer)
             && bool_decide (recipient stream = contract_caller e)))
      ERR_UNAUTHORIZED;;
    map_set_streams stream_id
      (set_details stream payment_per_block_ timeframe_);;
    mret true).

(** ** Traces of calls *)

Inductive call :=
| StreamTo (recipient_ : principal) (initial_balance : N)
    (timeframe_ : timeframe_t) (payment_per_block_ : N)
| Refuel (stream_id amount : N)
| Withdraw (stream_id : N)
| Refund (stream_id : N)
| UpdateDetails (stream_id payment_per_block_ : N) (timeframe_ : timeframe_t)
    (signer : principal) (signature : list byte).

(** State left behind by one transaction. *)
Definition exec `{Crypto} (e : env) (c : call) (st : state) : state :=
  match c with
  | StreamTo r b tf p => (stream_to e r b tf p st).2
  | Refuel i a => (refuel e i a st).2
  | Withdraw i => (withdraw e i st).2
  | Refund i => (refund e i st).2
  | UpdateDetails i p tf sg sig => (update_details e i p tf sg sig st).2
  end.

Definition any_call (c : call) : bool := true.

Definition not_update (c : call) : bool :=
  match c with
  | UpdateDetails _ _ _ _ _ => false
  | _ => true
  end.

Definition deployed (l : gmap principal N) : state :=
  {| streams := ∅; latest_stream_id := 0; stx := l |}.

(** [reachable allowed st h]: [st] is the contract state at block height
    [h] after some sequence of [allowed] transactions, the block height
    never decreasing along the way. *)
Inductive reachable `{Crypto} (allowed : call → bool) : state → N → Prop :=
| reachable_deployed l h :
    reachable allowed (deployed l) h
| reachable_wait st h h' :
    reachable allowed st h → h ≤ h' → reachable allowed st h'
| reachable_call st h e c :
    reachable allowed st h →
    stacks_block_height e = h →
    allowed c = true →
    reachable allowed (exec e c st) h.

(** The recipient has not been paid more than has vested at [e]'s height. *)
Definition withdrawn_within_vested (e : env) (s : stream_t) : Prop :=
  ∃ d, calculate_block_delta e (timeframe s) = Val d
       ∧ withdrawn_balance s ≤ d * payment_per_block s.

(** Every stream has a non-empty timeframe and, at height [h], a
    withdrawn balance within the vested amount. *)
Definition vesting_invariant (st : state) (h : N) : Prop :=
  ∀ i s, streams st !! i = Some s →
    start_block (timeframe s) < stop_block (timeframe s)
    ∧ ∀ e, stacks_block_height e = h → withdrawn_within_vested e s.

(** Identifiers in use are exactly those below the counter. *)
Definition ids_sequential (st : state) : Prop :=
  ∀ i, is_Some (streams st !! i) ↔ i < latest_stream_id st.

(** The values a well-typed record can hold. *)
Definition wf_principal (p : principal) : Prop :=
  match p with
  | Standard v h => v < 256 ∧ h < 2 ^ 160
  | Contract v h name => v < 256 ∧ h < 2 ^ 160 ∧ string_len name < 256
  end.

Definition wf_timeframe (tf : timeframe_t) : Prop :=
  start_block tf ≤ UINT_MAX ∧ stop_block tf ≤ UINT_MAX.

Definition wf_stream (s : stream_t) : Prop :=
  wf_principal (sender s) ∧ wf_principal (recipient s)
  ∧ balance s ≤ UINT_MAX ∧ withdrawn_balance s ≤ UINT_MAX
  ∧ payment_per_block s ≤ UINT_MAX ∧ wf_timeframe (timeframe s).

(** The caller and the signer are the two parties of the stream, in
    either order. *)
Definition dual_party (s : stream_t) (caller signer : principal) : Prop :=
  (sender s = caller ∧ recipient s = signer)
  ∨ (sender s = signer ∧ recipient s = caller).

(** ** An executable instance of the cryptographic built-ins

    Used to run the contract on concrete inputs.  The hash is the identity
    (so it has no collisions at all) and a signature is the signer's
    33-byte public key followed by the digest it signs: recovery succeeds
    exactly on that digest. *)

Definition be_value (l : list byte) : N :=
  fold_left (λ acc b, acc * 256 + Byte.to_N b) l 0.

Definition ideal_sign (pubkey digest : list byte) : list byte :=
  pubkey ++ digest.

Definition ideal_recover (hash signature : list byte) : option (list byte) :=
  if bool_decide (drop 33%nat signature = hash)
  then Some (take 33%nat signature)
  else None.

Definition ideal_crypto : Crypto :=
  {| sha256 := λ m, m;
     secp256k1_recover := ideal_recover;
     principal_of := λ pk, Some (Standard 26 (be_value pk)) |}.

(** The accounts of the contract's test-suite. *)
Definition wallet_1 : principal := Standard 26 1.
Definition wallet_2 : principal := Standard 26 2.
Definition wallet_3 : principal := Standard 26 3.
Definition stream_contract : principal := Contract 26 0 "stream".

Definition key_of (n : N) : list byte := be_bytes 33 n.

Definition caller_at (who : principal) (height : N) : env :=
  {| tx_sender := who; contract_caller := who;
     contract_self := stream_contract; stacks_block_height := height |}.

Definition funded : gmap principal N :=
  {[ wallet_1 := 1000; wallet_2 := 1000; wallet_3 := 1000 ]}.

Definition tf (start stop : N) : timeframe_t :=
  {| start_block := start; stop_block := stop |}.

(** State after the test-suite's set-up: [wallet_1] streams 5 STX to
    [wallet_2] over blocks 0 to 5 at 1 STX per block. *)
Definition st_created : state :=
  (stream_to (caller_at wallet_1 2) wallet_2 5 (tf 0 5) 1 (deployed funded)).2.

(** The signature of the party holding key [n] over the consent digest of
    stream [stream_id] in state [st] for the proposal [(p, t)]. *)
Definition consent (n : N) (st : state) (stream_id p : N) (t : timeframe_t)
    : list byte :=
  ideal_sign (key_of n) (hash_stream (H:=ideal_crypto) st stream_id p t).

(** ... then [wallet_2] withdraws at height 4. *)
Definition st_withdrawn : state :=
  (withdraw (caller_at wallet_2 4) 0 st_created).2.

(** ... then both parties agree to cut the rate to zero. *)
Definition st_rate_cut : state :=
  (update_details (H:=ideal_crypto) (caller_at wallet_1 4) 0 0 (tf 0 5)
     wallet_2 (consent 2 st_withdrawn 0 0 (tf 0 5)) st_withdrawn).2.

(** [wallet_1] opens a second stream with the same parameters. *)
Definition st_twins : state :=
  (stream_to (caller_at wallet_1 2) wallet_2 5 (tf 0 5) 1 st_created).2.

(** Both parties re-confirm the current rate and timeframe of stream 0. *)
Definition st_reconfirmed : state :=
  (update_details (H:=ideal_crypto) (caller_at wallet_1 3) 0 1 (tf 0 5)
     wallet_2 (consent 2 st_created 0 1 (tf 0 5)) st_created).2.

(** [wallet_1] streams 20 STX to itself. *)
Definition st_self : state :=
  (stream_to (caller_at wallet_1 2) wallet_1 20 (tf 0 5) 1 (deployed funded)).2.

(** [wallet_1] funds 5 STX for a stream that vests 10 STX per block. *)
Definition st_underfunded : state :=
  (stream_to (caller_at wallet_1 2) wallet_2 5 (tf 0 5) 10 (deployed funded)).2.

(** ** Histories from an arbitrary state *)

(** The stream a call addresses; [stream-to] addresses the identifier it
    is about to hand out. *)
Definition call_target (st : state) (c : call) : N :=
  match c with
  | StreamTo _ _ _ _ => latest_stream_id st
  | Refuel i _ => i
  | Withdraw i => i
  | Refund i => i
  | UpdateDetails i _ _ _ _ => i
  end.

(** [evolves st st']: some sequence of transactions, by any callers at any
    block heights, leads from [st] to [st']. *)
Inductive evolves `{Crypto} : state → state → Prop :=
| evolves_refl st : evolves st st
| evolves_step st st' e c : evolves st st' → evolves st (exec e c st').

(** Both parties agree on a timeframe that stops before it starts. *)
Definition st_inverted : state :=
  (update_details (H:=ideal_crypto) (caller_at wallet_1 3) 0 1 (tf 4 2)
     wallet_2 (consent 2 st_created 0 1 (tf 4 2)) st_created).2.

(** Beside stream 0, [wallet_3] funds 5 STX for a stream to itself that
    vests 10 STX per block. *)
Definition st_shared : state :=
  (stream_to (caller_at wallet_3 0) wallet_3 5 (tf 0 5) 10 st_created).2.

(** Stream 0 refuelled with 5 STX, and then refunded after its stop block. *)
Definition st_refuelled : state :=
  (refuel (caller_at wallet_1 3) 0 5 st_created).2.

Definition st_refunded : state :=
  (refund (caller_at wallet_1 6) 0 st_refuelled).2.

(** * Properties *)

(** ** Unfolding the entry points *)

Ltac unfold_call :=
  unfold stream_to, refuel, withdraw, refund, update_details, public,
    call_balance_of, get_stream_or, asserts, try_stx_transfer, lift,
    map_set_streams, var_get_latest_stream_id, var_set_latest_stream_id,
    as_contract_tx_sender, mbind, M_bind, bind, mret, M_ret, ret, err.

Lemma refuel_eq e stream_id amount st :
  refuel e stream_id amount st =
  match streams st !! stream_id with
  | None => (Failure ERR_INVALID_STREAM_ID, st)
  | Some s =>
      if bool_decide (contract_caller e = sender s) then
        if 0 <? amount then
          match stx_transfer amount (contract_caller e) (contract_self e)
                  (tx_sender e) (stx st) with
          | inl code => (Failure code, st)
          | inr l' =>
              match uint_add (balance s) amount with
              | Fault f => (RuntimeError f, st)
              | Val b' =>
                  (Success amount,
                   {| streams := <[stream_id := set_balance s b']> (streams st);
                      latest_stream_id := latest_stream_id st;
                      stx := l' |})
              end
          end
        else (Failure ERR_INVALID_AMOUNT, st)
      else (Failure ERR_UNAUTHORIZED, st)
  end.
Proof.
  unfold_call.
  destruct (streams st !! stream_id) as [s|]; [|done].
  destruct (bool_decide _); [|done]. simpl.
  destruct (0 <? amount); [|done]. simpl.
  destruct (stx_transfer _ _ _ _ _); [done|].
  destruct (uint_add _ _); done.
Qed.

Lemma stream_to_eq e r b t p st :
  stream_to e r b t p st =
  if start_block t <? stop_block t then
    if 0 <? b then
      match stx_transfer b (contract_caller e) (contract_self e)
              (tx_sender e) (stx st) with
      | inl code => (Failure code, st)
      | inr l' =>
          match uint_add (latest_stream_id st) 1 with
          | Fault f => (RuntimeError f, st)
          | Val next =>
              (Success (latest_stream_id st),
               {| streams := <[latest_stream_id st := new_stream e r b t p]>
                               (streams st);
                  latest_stream_id := next;
                  stx := l' |})
          end
      end
    else (Failure ERR_INVALID_AMOUNT, st)
  else (Failure ERR_INVALID_TIMEFRAME, st).
Proof.
  unfold_call. simpl.
  destruct (start_block t <? stop_block t); [|done]. simpl.
  destruct (0 <? b); [|done]. simpl.
  destruct (stx_transfer _ _ _ _ _); [done|]. simpl.
  destruct (uint_add _ _); done.
Qed.

Lemma withdraw_eq e stream_id st :
  withdraw e stream_id st =
  match streams st !! stream_id with
  | None => (Failure ERR_INVALID_STREAM_ID, st)
  | Some s =>
      match balance_of e st stream_id (contract_caller e) with
      | Fault f => (RuntimeError f, st)
      | Val b =>
          if bool_decide (contract_caller e = recipient s) then
            match uint_add (withdrawn_balance s) b with
            | Fault f => (RuntimeError f, st)
            | Val w' =>
                match stx_transfer b (contract_self e) (recipient s)
                        (contract_self e) (stx st) with
                | inl code => (Failure code, st)
                | inr l' =>
                    (Success b,
                     {| streams := <[stream_id := set_withdrawn_balance s w']>
                                     (streams st);
                        latest_stream_id := latest_stream_id st;
                        stx := l' |})
                end
            end
          else (Failure ERR_UNAUTHORIZED, st)
      end
  end.
Proof.
  unfold_call.
  destruct (streams st !! stream_id) as [s|]; [|done].
  destruct (balance_of _ _ _ _); [|done].
  destruct (bool_decide _); [|done]. simpl.
  destruct (uint_add _ _); [|done]. simpl.
  destruct (stx_transfer _ _ _ _ _); done.
Qed.

Lemma refund_eq e stream_id st :
  refund e stream_id st =
  match streams st !! stream_id with
  | None => (Failure ERR_INVALID_STREAM_ID, st)
  | Some s =>
      match balance_of e st stream_id (sender s) with
      | Fault f => (RuntimeError f, st)
      | Val b =>
          if bool_decide (contract_caller e = sender s) then
            if stop_block (timeframe s) <? stacks_block_height e then
              match uint_sub (balance s) b with
              | Fault f => (RuntimeError f, st)
              | Val b' =>
                  match stx_transfer b (contract_self e) (sender s)
                          (contract_self e) (stx st) with
                  | inl code => (Failure code, st)
                  | inr l' =>
                      (Success b,
                       {| streams := <[stream_id := set_balance s b']>
                                       (streams st);
                          latest_stream_id := latest_stream_id st;
                          stx := l' |})
                  end
              end
            else (Failure ERR_STREAM_STILL_ACTIVE, st)
          else (Failure ERR_UNAUTHORIZED, st)
      end
  end.
Proof.
  unfold_call.
  destruct (streams st !! stream_id) as [s|]; [|done].
  destruct (balance_of _ _ _ _); [|done].
  destruct (bool_decide _); [|done]. simpl.
  destruct (_ <? _); [|done]. simpl.
  destruct (uint_sub _ _); [|done]. simpl.
  destruct (stx_transfer _ _ _ _ _); done.
Qed.

Section WithCrypto.
Context `{Crypto}.

Lemma update_details_eq e stream_id p t signer signature st :
  update_details e stream_id p t signer signature st =
  match streams st !! stream_id with
  | None => (Failure ERR_INVALID_STREAM_ID, st)
  | Some s =>
      if validate_signature (sha256 (hash_stream_msg s p t)) signature signer
      then
        if (bool_decide (sender s = contract_caller e)
              && bool_decide (recipient s = signer))
           || (bool_decide (sender s = signer)
                 && bool_decide (recipient s = contract_caller e))
        then
          (Success true,
           {| streams := <[stream_id := set_details s p t]> (streams st);
              latest_stream_id := latest_stream_id st;
              stx := stx st |})
        else (Failure ERR_UNAUTHORIZED, st)
      else (Failure ERR_INVALID_SIGNATURE, st)
  end.
Proof.
  unfold_call. unfold hash_stream. cbv beta.
  destruct (streams st !! stream_id) as [s|] eqn:E; [|done].
  cbv beta iota. rewrite E.
  destruct (validate_signature _ _ _); [|done]. simpl.
  destruct (_ || _); done.
Qed.

End WithCrypto.

(** ** Checked arithmetic *)

Lemma uint_add_Val a b c : uint_add a b = Val c ↔ c = a + b ∧ a + b ≤ UINT_MAX.
Proof.
  unfold uint_add. destruct (N.leb_spec (a + b) UINT_MAX); split.
  - intros [= <-]. done.
  - intros [-> _]. done.
  - done.
  - intros [_ ?]. lia.
Qed.

Lemma uint_sub_Val a b c : uint_sub a b = Val c ↔ c = a - b ∧ b ≤ a.
Proof.
  unfold uint_sub. destruct (N.leb_spec b a); split.
  - intros [= <-]. done.
  - intros [-> _]. done.
  - done.
  - intros [_ ?]. lia.
Qed.

Lemma uint_mul_Val a b c : uint_mul a b = Val c ↔ c = a * b ∧ a * b ≤ UINT_MAX.
Proof.
  unfold uint_mul. destruct (N.leb_spec (a * b) UINT_MAX); split.
  - intros [= <-]. done.
  - intros [-> _]. done.
  - done.
  - intros [_ ?]. lia.
Qed.

(** ** Refuel *)

(** C8. [refuel] fails with [ERR_INVALID_STREAM_ID] when the stream does
    not exist, with [ERR_UNAUTHORIZED] when the caller is not the stream's
    sender and with [ERR_INVALID_AMOUNT] when the amount is zero (checked
    in that order); every failure leaves the state unchanged; a successful
    call returns [amount] and replaces the record by the same record with
    [balance] increased by exactly [amount]; and the call does succeed
    whenever the three checks pass, the transfer is accepted and the new
    balance fits a [uint]. *)
Theorem refuel_errors_and_effect e stream_id amount st :
  (streams st !! stream_id = None →
     refuel e stream_id amount st = (Failure ERR_INVALID_STREAM_ID, st))
  ∧ (∀ s, streams st !! stream_id = Some s →
       contract_caller e ≠ sender s →
       refuel e stream_id amount st = (Failure ERR_UNAUTHORIZED, st))
  ∧ (∀ s, streams st !! stream_id = Some s →
       contract_caller e = sender s →
       amount = 0 →
       refuel e stream_id amount st = (Failure ERR_INVALID_AMOUNT, st))
  ∧ (∀ o st', refuel e stream_id amount st = (o, st') →
       (∀ v, o ≠ Success v) → st' = st)
  ∧ (∀ v st', refuel e stream_id amount st = (Success v, st') →
       v = amount
       ∧ ∃ s, streams st !! stream_id = Some s
            ∧ streams st' =
                <[stream_id := {| sender := sender s;
                                recipient := recipient s;
                                balance := balance s + amount;
                                withdrawn_balance := withdrawn_balance s;
                                payment_per_block := payment_per_block s;
                                timeframe := timeframe s |}]>
                  (streams st)
            ∧ latest_stream_id st' = latest_stream_id st)
  ∧ (∀ s l', streams st !! stream_id = Some s →
       contract_caller e = sender s →
       0 < amount →
       stx_transfer amount (contract_caller e) (contract_self e)
         (tx_sender e) (stx st) = inr l' →
       balance s + amount ≤ UINT_MAX →
       refuel e stream_id amount st =
         (Success amount,
          {| streams :=
               <[stream_id := {| sender := sender s;
                               recipient := recipient s;
                               balance := balance s + amount;
                               withdrawn_balance := withdrawn_balance s;
                               payment_per_block := payment_per_block s;
                               timeframe := timeframe s |}]>
                 (streams st);
             latest_stream_id := latest_stream_id st;
             stx := l' |})).
Proof.
  rewrite refuel_eq. split_and!.
  - by intros ->.
  - intros s -> Hne. by rewrite bool_decide_eq_false_2.
  - intros s -> Heq ->. by rewrite bool_decide_eq_true_2.
  - intros o st' Hr Ho.
    repeat case_match; simplify_eq; try done; by destruct (Ho amount).
  - intros v st' Hr. repeat case_match; simplify_eq.
    split; [done|]. eexists; split; [done|]. simpl.
    match goal with Hu : uint_add _ _ = Val _ |- _ =>
      apply uint_add_Val in Hu as [-> _] end.
    done.
  - intros s l' -> Heq Hpos Ht Hb.
    rewrite bool_decide_eq_true_2 by done.
    apply N.ltb_lt in Hpos as ->. rewrite Ht.
    unfold uint_add. apply N.leb_le in Hb as ->. done.
Qed.

(** ** Stream creation and identifiers *)

Section Identifiers.
Context `{Crypto}.

Lemma ids_sequential_update st i s :
  ids_sequential st →
  streams st !! i = Some s →
  ∀ s' l',
    ids_sequential
      {| streams := <[i := s']> (streams st);
         latest_stream_id := latest_stream_id st;
         stx := l' |}.
Proof.
  intros Hs Hi s' l' j. simpl. rewrite lookup_insert_is_Some, <- (Hs j).
  split.
  - intros [<-|[_ ?]]; [|done]. by rewrite Hi.
  - intros Hj. destruct (decide (i = j)); [by left|by right].
Qed.

Lemma ids_sequential_exec e c st :
  ids_sequential st → ids_sequential (exec e c st).
Proof.
  intros Hs. destruct c; simpl.
  - rewrite stream_to_eq. repeat case_match; simpl; try done.
    match goal with Hu : uint_add _ _ = Val _ |- _ =>
      apply uint_add_Val in Hu as [-> _] end.
    intros j. simpl. rewrite lookup_insert_is_Some, (Hs j). lia.
  - rewrite refuel_eq. repeat case_match; simpl; try done.
    by eapply ids_sequential_update.
  - rewrite withdraw_eq. repeat case_match; simpl; try done.
    by eapply ids_sequential_update.
  - rewrite refund_eq. repeat case_match; simpl; try done.
    by eapply ids_sequential_update.
  - rewrite update_details_eq. repeat case_match; simpl; try done.
    by eapply ids_sequential_update.
Qed.

Lemma reachable_ids_sequential allowed st h :
  reachable allowed st h → ids_sequential st.
Proof.
  induction 1 as [l h|st h h' _ IH _|st h e c _ IH _ _].
  - intros i. simpl. rewrite lookup_empty. split; [by intros [? ?]|lia].
  - done.
  - by apply ids_sequential_exec.
Qed.

(** C9. [stream-to] fails with [ERR_INVALID_TIMEFRAME] when
    [stop-block <= start-block] and, the timeframe being valid, with
    [ERR_INVALID_AMOUNT] when the initial balance is zero.  Otherwise, the
    transfer into custody being accepted, it stores the new record (with
    [withdrawn-balance] zero) under the current value of
    [latest-stream-id], increments that counter by one and returns the
    identifier.  In every reachable state the identifiers in use are
    exactly those below the counter, which starts at zero, so the
    identifier handed out is unused and no existing stream is touched. *)
Theorem stream_to_sequential_ids e r b t p st h :
  reachable any_call st h →
  (stop_block t ≤ start_block t →
     stream_to e r b t p st = (Failure ERR_INVALID_TIMEFRAME, st))
  ∧ (start_block t < stop_block t → b = 0 →
     stream_to e r b t p st = (Failure ERR_INVALID_AMOUNT, st))
  ∧ (∀ l', start_block t < stop_block t → 0 < b →
       stx_transfer b (contract_caller e) (contract_self e) (tx_sender e)
         (stx st) = inr l' →
       latest_stream_id st < UINT_MAX →
       stream_to e r b t p st =
         (Success (latest_stream_id st),
          {| streams :=
               <[latest_stream_id st :=
                   {| sender := contract_caller e; recipient := r;
                      balance := b; withdrawn_balance := 0;
                      payment_per_block := p; timeframe := t |}]>
                 (streams st);
             latest_stream_id := latest_stream_id st + 1;
             stx := l' |}))
  ∧ (∀ v st', stream_to e r b t p st = (Success v, st') →
       v = latest_stream_id st
       ∧ streams st !! v = None
       ∧ streams st' !! v
         = Some {| sender := contract_caller e; recipient := r;
                   balance := b; withdrawn_balance := 0;
                   payment_per_block := p; timeframe := t |}
       ∧ latest_stream_id st' = v + 1
       ∧ ∀ i, i ≠ v → streams st' !! i = streams st !! i)
  ∧ ids_sequential st
  ∧ (∀ l, latest_stream_id (deployed l) = 0 ∧ streams (deployed l) = ∅).
Proof.
  intros Hr. apply reachable_ids_sequential in Hr as Hs.
  rewrite stream_to_eq. split_and!.
  - intros Hle. apply N.ltb_ge in Hle as ->. done.
  - intros Hlt ->. apply N.ltb_lt in Hlt as ->. done.
  - intros l' Hlt Hb Ht Hmax.
    apply N.ltb_lt in Hlt as ->. apply N.ltb_lt in Hb as ->. rewrite Ht.
    unfold uint_add.
    assert ((latest_stream_id st + 1 <=? UINT_MAX) = true) as ->
      by (apply N.leb_le; lia).
    done.
  - intros v st' Hst. repeat case_match; simplify_eq.
    match goal with Hu : uint_add _ _ = Val _ |- _ =>
      apply uint_add_Val in Hu as [-> _] end.
    simpl. split_and!; try done.
    + destruct (streams st !! latest_stream_id st) eqn:E; [|done].
      assert (latest_stream_id st < latest_stream_id st); [|lia].
      apply Hs. by rewrite E.
    + apply lookup_insert_eq.
    + intros i Hi. by rewrite lookup_insert_ne.
  - done.
  - done.
Qed.

End Identifiers.

Lemma stream_to_sequential_ids_witness :
  reachable (H:=ideal_crypto) any_call (deployed funded) 2
  ∧ (stream_to (caller_at wallet_1 2) wallet_2 5 (tf 0 5) 1
       (deployed funded)).1 = Success 0
  ∧ streams (stream_to (caller_at wallet_1 2) wallet_2 5 (tf 0 5) 1
               (deployed funded)).2 !! 0
    = Some {| sender := wallet_1; recipient := wallet_2; balance := 5;
              withdrawn_balance := 0; payment_per_block := 1;
              timeframe := tf 0 5 |}
  ∧ latest_stream_id (stream_to (caller_at wallet_1 2) wallet_2 5 (tf 0 5) 1
                        (deployed funded)).2 = 0 + 1.
Proof.
  split; [constructor|].
  destruct (stream_to_sequential_ids (H:=ideal_crypto)
              (caller_at wallet_1 2) wallet_2 5 (tf 0 5) 1 (deployed funded) 2
              (reachable_deployed _ _ _)) as (_ & _ & Hok & Hrec & _).
  split.
  - erewrite Hok; [reflexivity | reflexivity | reflexivity
                  | vm_compute; reflexivity | reflexivity].
  - destruct (Hrec 0 (stream_to (caller_at wallet_1 2) wallet_2 5 (tf 0 5) 1
                        (deployed funded)).2)
      as (_ & _ & Hst & Hnext & _).
    + vm_compute; reflexivity.
    + split; [exact Hst|exact Hnext].
Defined.

(** ** Consensus serialization is unambiguous *)

Lemma byte_of_N_inj x y : byte_of_N x = byte_of_N y → x mod 256 = y mod 256.
Proof.
  unfold byte_of_N. intros Hb.
  destruct (Byte.of_N (x mod 256)) as [bx|] eqn:Ex.
  2: { apply Byte.of_N_None_iff in Ex.
       pose proof (N.mod_upper_bound x 256). lia. }
  destruct (Byte.of_N (y mod 256)) as [by_|] eqn:Ey.
  2: { apply Byte.of_N_None_iff in Ey.
       pose proof (N.mod_upper_bound y 256). lia. }
  apply Byte.to_of_N in Ex, Ey. congruence.
Qed.

Lemma be_bytes_length w x : length (be_bytes w x) = w.
Proof.
  revert x. induction w as [|w IH]; intros x; simpl; [done|].
  rewrite length_app, IH. simpl. lia.
Qed.

Lemma be_bytes_inj w x y :
  x < 256 ^ N.of_nat w → y < 256 ^ N.of_nat w →
  be_bytes w x = be_bytes w y → x = y.
Proof.
  revert x y. induction w as [|w IH]; intros x y Hx Hy Hb.
  - simpl in Hx, Hy. lia.
  - simpl in Hb. apply app_inj_tail in Hb as [Hhi Hlo].
    rewrite Nat2N.inj_succ, N.pow_succ_r' in Hx, Hy.
    apply IH in Hhi; [|by apply N.Div0.div_lt_upper_bound..].
    apply byte_of_N_inj in Hlo.
    rewrite (N.div_mod' x 256), (N.div_mod' y 256). congruence.
Qed.

Lemma be_bytes_delimited w x y r r' :
  x < 256 ^ N.of_nat w → y < 256 ^ N.of_nat w →
  be_bytes w x ++ r = be_bytes w y ++ r' → x = y ∧ r = r'.
Proof.
  intros Hx Hy Hb. apply app_inj_1 in Hb as [Hb ->].
  - split; [|done]. by eapply be_bytes_inj.
  - by rewrite !be_bytes_length.
Qed.

Lemma list_byte_of_string_length s :
  length (list_byte_of_string s) = String.length s.
Proof.
  unfold list_byte_of_string. rewrite length_map.
  induction s as [|c s IH]; simpl; [done|]. by rewrite IH.
Qed.

Lemma list_byte_of_string_inj s s' :
  list_byte_of_string s = list_byte_of_string s' → s = s'.
Proof.
  intros Hb. rewrite <- (string_of_list_byte_of_string s),
    <- (string_of_list_byte_of_string s'). by rewrite Hb.
Qed.

Lemma cons_tail_eq (b : byte) (l l' : list byte) : b :: l = b :: l' → l = l'.
Proof. by intros [= ->]. Qed.

Lemma serialize_uint_delimited :
  self_delimiting (λ u, u ≤ UINT_MAX) serialize_uint.
Proof.
  intros u u' r r' Hu Hu'. unfold serialize_uint.
  rewrite <- !app_comm_cons. intros Hb%cons_tail_eq.
  apply be_bytes_delimited in Hb; [done|unfold UINT_MAX in *; simpl; lia..].
Qed.

Lemma serialize_principal_delimited :
  self_delimiting wf_principal serialize_principal.
Proof.
  intros [v h|v h n] [v' h'|v' h' n'] r r'; unfold serialize_principal;
    rewrite <- ?app_comm_cons, <- ?(assoc_L (++));
    try (intros _ _ [=]; fail); simpl wf_principal.
  - intros [Hv Hh] [Hv' Hh'] Hb%cons_tail_eq.
    apply be_bytes_delimited in Hb as [-> Hb]; [|simpl; lia..].
    apply be_bytes_delimited in Hb as [-> ->]; [done|simpl; lia..].
  - intros (Hv & Hh & Hn) (Hv' & Hh' & Hn') Hb%cons_tail_eq.
    apply be_bytes_delimited in Hb as [-> Hb]; [|simpl; lia..].
    apply be_bytes_delimited in Hb as [-> Hb]; [|simpl; lia..].
    apply be_bytes_delimited in Hb as [Hlen Hb]; [|simpl; lia..].
    apply app_inj_1 in Hb as [Hb ->].
    + by apply list_byte_of_string_inj in Hb as ->.
    + rewrite !list_byte_of_string_length. unfold string_len in Hlen. lia.
Qed.

Lemma serialize_timeframe_delimited :
  self_delimiting wf_timeframe serialize_timeframe.
Proof.
  intros [a b] [a' b'] r r' [Ha Hb] [Ha' Hb']. simpl in Ha, Hb, Ha', Hb'.
  unfold serialize_timeframe. simpl start_block. simpl stop_block.
  rewrite <- !(assoc_L (++)). intros Hs.
  do 2 apply app_inv_head in Hs.
  apply serialize_uint_delimited in Hs as [-> Hs]; [|done..].
  apply app_inv_head in Hs.
  apply serialize_uint_delimited in Hs as [-> ->]; done.
Qed.

Lemma serialize_stream_delimited :
  self_delimiting wf_stream serialize_stream.
Proof.
  intros [sd rc bl wd pp tfr] [sd' rc' bl' wd' pp' tfr'] r r'.
  unfold wf_stream, serialize_stream.
  cbn [sender recipient balance withdrawn_balance payment_per_block
       timeframe].
  intros (Hsd & Hrc & Hbl & Hwd & Hpp & Htf)
         (Hsd' & Hrc' & Hbl' & Hwd' & Hpp' & Htf').
  rewrite <- !(assoc_L (++)). intros Hs.
  do 2 apply app_inv_head in Hs.
  apply serialize_uint_delimited in Hs as [-> Hs]; [|done..].
  apply app_inv_head in Hs.
  apply serialize_uint_delimited in Hs as [-> Hs]; [|done..].
  apply app_inv_head in Hs.
  apply serialize_principal_delimited in Hs as [-> Hs]; [|done..].
  apply app_inv_head in Hs.
  apply serialize_principal_delimited in Hs as [-> Hs]; [|done..].
  apply app_inv_head in Hs.
  apply serialize_timeframe_delimited in Hs as [-> Hs]; [|done..].
  apply app_inv_head in Hs.
  apply serialize_uint_delimited in Hs as [-> ->]; done.
Qed.

(** The bytes that are hashed determine the record and the proposal. *)
Lemma hash_stream_msg_inj s p t s' p' t' :
  wf_stream s → wf_stream s' → p ≤ UINT_MAX → p' ≤ UINT_MAX →
  wf_timeframe t → wf_timeframe t' →
  hash_stream_msg s p t = hash_stream_msg s' p' t' →
  s = s' ∧ p = p' ∧ t = t'.
Proof.
  intros Hs Hs' Hp Hp' Ht Ht'. unfold hash_stream_msg.
  rewrite <- !(assoc_L (++)). intros Hm.
  apply serialize_stream_delimited in Hm as [-> Hm]; [|done..].
  apply serialize_uint_delimited in Hm as [-> Hm]; [|done..].
  rewrite <- (app_nil_r (serialize_timeframe t)),
    <- (app_nil_r (serialize_timeframe t')) in Hm.
  apply serialize_timeframe_delimited in Hm as [-> _]; done.
Qed.

(** ** Updating the details *)

Section UpdateDetails.
Context `{Crypto}.

Lemma dual_party_decide s caller signer :
  (bool_decide (sender s = caller) && bool_decide (recipient s = signer))
  || (bool_decide (sender s = signer) && bool_decide (recipient s = caller))
  = bool_decide (dual_party s caller signer).
Proof.
  unfold dual_party.
  repeat case_bool_decide; simpl; try done; tauto.
Qed.

Lemma hash_stream_lookup st stream_id s p t :
  streams st !! stream_id = Some s →
  hash_stream st stream_id p t = sha256 (hash_stream_msg s p t).
Proof. unfold hash_stream. by intros ->. Qed.

(** C5. On a stream whose sender and recipient are distinct,
    [update-details] fails with [ERR_UNAUTHORIZED] unless the caller and
    the signer are the stream's two parties, in one of the two orders:
    with any other pair the call never succeeds, and once the signature
    check that precedes the test of the parties has passed the error is
    [ERR_UNAUTHORIZED] (a signature that does not verify is answered
    first, with [ERR_INVALID_SIGNATURE]).  In particular a self-signed
    update, caller and signer being the same principal, is rejected with
    [ERR_UNAUTHORIZED] although its signature verifies. *)
Theorem update_details_needs_both_parties e stream_id p t signer signature st s :
  streams st !! stream_id = Some s →
  sender s ≠ recipient s →
  (¬ dual_party s (contract_caller e) signer →
     (∀ v st', update_details e stream_id p t signer signature st
                 ≠ (Success v, st'))
     ∧ (validate_signature (hash_stream st stream_id p t) signature signer
          = true →
        update_details e stream_id p t signer signature st
          = (Failure ERR_UNAUTHORIZED, st))
     ∧ (validate_signature (hash_stream st stream_id p t) signature signer
          = false →
        update_details e stream_id p t signer signature st
          = (Failure ERR_INVALID_SIGNATURE, st)))
  ∧ (contract_caller e = signer →
     validate_signature (hash_stream st stream_id p t) signature signer
       = true →
     update_details e stream_id p t signer signature st
       = (Failure ERR_UNAUTHORIZED, st)).
Proof.
  intros Hs Hne. rewrite update_details_eq, Hs, (hash_stream_lookup _ _ s) by done.
  rewrite dual_party_decide. split.
  - intros Hnd. rewrite (bool_decide_eq_false_2 _ Hnd). split_and!.
    + intros v st'. by destruct (validate_signature _ _ _).
    + by intros ->.
    + by intros ->.
  - intros Hself ->. rewrite bool_decide_eq_false_2; [done|].
    unfold dual_party. rewrite Hself. intros [[? ?]|[? ?]]; congruence.
Qed.

(** C7. A successful [update-details] replaces the record by the same
    record with only [payment-per-block] and [timeframe] overwritten:
    sender, recipient, balance and withdrawn balance, every other stream,
    the identifier counter and the STX balances are unchanged.  Success
    depends only on the signature check and on the caller and signer being
    the two parties; the new timeframe is not examined, so an update whose
    new stop is not after its new start succeeds like any other. *)
Theorem update_details_overwrites_details_only
    e stream_id p t signer signature st :
  (∀ v st', update_details e stream_id p t signer signature st
              = (Success v, st') →
     ∃ s, streams st !! stream_id = Some s
          ∧ streams st' = <[stream_id := set_details s p t]> (streams st)
          ∧ latest_stream_id st' = latest_stream_id st
          ∧ stx st' = stx st
          ∧ sender (set_details s p t) = sender s
          ∧ recipient (set_details s p t) = recipient s
          ∧ balance (set_details s p t) = balance s
          ∧ withdrawn_balance (set_details s p t) = withdrawn_balance s
          ∧ payment_per_block (set_details s p t) = p
          ∧ timeframe (set_details s p t) = t)
  ∧ (∀ s, streams st !! stream_id = Some s →
       validate_signature (hash_stream st stream_id p t) signature signer
         = true →
       dual_party s (contract_caller e) signer →
       update_details e stream_id p t signer signature st =
         (Success true,
          {| streams := <[stream_id := set_details s p t]> (streams st);
             latest_stream_id := latest_stream_id st;
             stx := stx st |})).
Proof.
  rewrite update_details_eq. split.
  - intros v st' Hu. destruct (streams st !! stream_id) as [s|]; [|done].
    repeat case_match; simplify_eq. by exists s.
  - intros s Hs Hv Hd. rewrite Hs.
    rewrite (hash_stream_lookup _ _ s) in Hv by done. rewrite Hv.
    by rewrite dual_party_decide, bool_decide_eq_true_2.
Qed.

End UpdateDetails.

Lemma update_details_needs_both_parties_witness :
  update_details (H:=ideal_crypto) (caller_at wallet_1 3) 0 1 (tf 0 4)
    wallet_1 (consent 1 st_created 0 1 (tf 0 4)) st_created
  = (Failure ERR_UNAUTHORIZED, st_created).
Proof.
  refine (proj2 (update_details_needs_both_parties (H:=ideal_crypto)
            (caller_at wallet_1 3) 0 1 (tf 0 4) wallet_1
            (consent 1 st_created 0 1 (tf 0 4)) st_created
            (new_stream (caller_at wallet_1 2) wallet_2 5 (tf 0 5) 1)
            _ _) _ _).
  - vm_compute; reflexivity.
  - discriminate.
  - reflexivity.
  - vm_compute; reflexivity.
Defined.

(** The signature is checked before the parties: [wallet_3], a stranger
    to stream 0, submits an update naming itself as signer with a signature
    it made over another proposal, and is answered
    [ERR_INVALID_SIGNATURE]. *)
Lemma stranger_with_unverified_signature :
  streams st_created !! 0
    = Some {| sender := wallet_1; recipient := wallet_2; balance := 5;
              withdrawn_balance := 0; payment_per_block := 1;
              timeframe := tf 0 5 |}
  ∧ update_details (H:=ideal_crypto) (caller_at wallet_3 3) 0 1 (tf 0 4)
      wallet_3 (consent 3 st_created 0 9 (tf 0 9)) st_created
    = (Failure ERR_INVALID_SIGNATURE, st_created).
Proof. vm_compute. done. Qed.

Lemma update_details_overwrites_details_only_witness :
  (update_details (H:=ideal_crypto) (caller_at wallet_1 3) 0 1 (tf 4 4)
     wallet_2 (consent 2 st_created 0 1 (tf 4 4)) st_created).1
  = Success true.
Proof.
  erewrite (proj2 (update_details_overwrites_details_only (H:=ideal_crypto)
              (caller_at wallet_1 3) 0 1 (tf 4 4) wallet_2
              (consent 2 st_created 0 1 (tf 4 4)) st_created)
              (new_stream (caller_at wallet_1 2) wallet_2 5 (tf 0 5) 1)).
  - reflexivity.
  - vm_compute; reflexivity.
  - vm_compute; reflexivity.
  - left. split; reflexivity.
Defined.

(** ** The consent digest *)

Lemma stx_transfer_inr_pos amount from to cur l l' :
  stx_transfer amount from to cur l = inr l' → 0 < amount.
Proof.
  unfold stx_transfer. destruct (N.eqb_spec amount 0); [done|]. lia.
Qed.

Lemma set_details_id s : set_details s (payment_per_block s) (timeframe s) = s.
Proof. by destruct s. Qed.

Lemma set_details_changes s p t :
  p ≠ payment_per_block s ∨ t ≠ timeframe s → set_details s p t ≠ s.
Proof. destruct s. unfold set_details. simpl. intros [?|?] [=]; done. Qed.

Lemma consent_message_changes st st' stream_id s s' p t :
  streams st !! stream_id = Some s →
  streams st' !! stream_id = Some s' →
  wf_stream s → wf_stream s' → p ≤ UINT_MAX → wf_timeframe t →
  s' ≠ s →
  consent_message st' stream_id p t ≠ consent_message st stream_id p t.
Proof.
  intros Hs Hs' Hwf Hwf' Hp Ht Hne. unfold consent_message.
  rewrite Hs, Hs'. simpl. intros Hm%(inj Some).
  apply hash_stream_msg_inj in Hm as [? _]; done.
Qed.

Section Consent.
Context `{Crypto}.

(** C2, as amended.  [update-details] accepts a signature only when it
    verifies over the SHA-256 digest of the current stored record of the
    given stream followed by the exact proposed rate and timeframe, and
    answers [ERR_INVALID_SIGNATURE] whenever it does not.  The stream
    identifier is not among the hashed bytes: every identifier whose
    stored record is the same yields the same digest, and [update-details]
    treats the signature alike on both.  A different record or a different
    proposal yields different hashed bytes. *)
Theorem consent_digest_binds_record_and_proposal
    e stream_id p t signer signature st s :
  streams st !! stream_id = Some s →
  wf_stream s → p ≤ UINT_MAX → wf_timeframe t →
  (∀ v st', update_details e stream_id p t signer signature st
              = (Success v, st') →
     validate_signature (sha256 (hash_stream_msg s p t)) signature signer
       = true)
  ∧ (validate_signature (sha256 (hash_stream_msg s p t)) signature signer
       = false →
     update_details e stream_id p t signer signature st
       = (Failure ERR_INVALID_SIGNATURE, st))
  ∧ (∀ other, streams st !! other = Some s →
       hash_stream st other p t = hash_stream st stream_id p t
       ∧ (update_details e other p t signer signature st).1
         = (update_details e stream_id p t signer signature st).1)
  ∧ (∀ s' p' t', wf_stream s' → p' ≤ UINT_MAX → wf_timeframe t' →
       (s', p', t') ≠ (s, p, t) →
       hash_stream_msg s' p' t' ≠ hash_stream_msg s p t).
Proof.
  intros Hs Hwf Hp Ht. split_and!.
  - intros v st'. rewrite update_details_eq, Hs.
    by destruct (validate_signature _ _ _).
  - intros Hv. by rewrite update_details_eq, Hs, Hv.
  - intros other Ho. split.
    + by rewrite !(hash_stream_lookup _ _ s).
    + rewrite !update_details_eq, Hs, Ho. by repeat case_match.
  - intros s' p' t' Hwf' Hp' Ht' Hne Hm.
    apply hash_stream_msg_inj in Hm as (-> & -> & ->); done.
Qed.

End Consent.

Ltac solve_wf :=
  unfold wf_stream, wf_timeframe, wf_principal, UINT_MAX; simpl;
  repeat split; lia.

Lemma consent_digest_binds_record_and_proposal_witness :
  hash_stream (H:=ideal_crypto) st_twins 1 2 (tf 0 9)
    = hash_stream (H:=ideal_crypto) st_twins 0 2 (tf 0 9)
  ∧ (update_details (H:=ideal_crypto) (caller_at wallet_1 3) 1 2 (tf 0 9)
       wallet_2 (consent 2 st_twins 0 2 (tf 0 9)) st_twins).1
    = (update_details (H:=ideal_crypto) (caller_at wallet_1 3) 0 2 (tf 0 9)
         wallet_2 (consent 2 st_twins 0 2 (tf 0 9)) st_twins).1.
Proof.
  refine (proj1 (proj2 (proj2
    (consent_digest_binds_record_and_proposal (H:=ideal_crypto)
       (caller_at wallet_1 3) 0 2 (tf 0 9) wallet_2
       (consent 2 st_twins 0 2 (tf 0 9)) st_twins
       (new_stream (caller_at wallet_1 2) wallet_2 5 (tf 0 5) 1)
       _ _ _ _))) 1 _).
  - vm_compute; reflexivity.
  - solve_wf.
  - unfold UINT_MAX; lia.
  - solve_wf.
  - vm_compute; reflexivity.
Defined.

(** C2, as stated, fails: [wallet_1] has two streams to [wallet_2] with the
    same parameters; the signature [wallet_2] produced for stream 0 verifies
    over the digest of stream 0 and is accepted by [update-details] on
    stream 1. *)
Lemma consent_for_one_stream_accepted_on_its_twin :
  streams st_twins !! 0
    = Some {| sender := wallet_1; recipient := wallet_2; balance := 5;
              withdrawn_balance := 0; payment_per_block := 1;
              timeframe := tf 0 5 |}
  ∧ streams st_twins !! 1 = streams st_twins !! 0
  ∧ validate_signature (H:=ideal_crypto)
      (hash_stream (H:=ideal_crypto) st_twins 0 2 (tf 0 9))
      (consent 2 st_twins 0 2 (tf 0 9)) wallet_2 = true
  ∧ (update_details (H:=ideal_crypto) (caller_at wallet_1 3) 1 2 (tf 0 9)
       wallet_2 (consent 2 st_twins 0 2 (tf 0 9)) st_twins).1
    = Success true.
Proof. vm_compute. done. Qed.

(** C10, as stated, fails: the two parties re-confirm the rate and
    timeframe stream 0 already has; this intervening update succeeds and
    changes nothing, and a consent [wallet_2] had signed before it for
    another proposal is still accepted after it. *)
Lemma earlier_consent_survives_reconfirming_update :
  update_details (H:=ideal_crypto) (caller_at wallet_1 3) 0 1 (tf 0 5)
    wallet_2 (consent 2 st_created 0 1 (tf 0 5)) st_created
  = (Success true, st_reconfirmed)
  ∧ hash_stream (H:=ideal_crypto) st_reconfirmed 0 2 (tf 0 9)
    = hash_stream (H:=ideal_crypto) st_created 0 2 (tf 0 9)
  ∧ (update_details (H:=ideal_crypto) (caller_at wallet_1 3) 0 2 (tf 0 9)
       wallet_2 (consent 2 st_created 0 2 (tf 0 9)) st_reconfirmed).1
    = Success true.
Proof. vm_compute. done. Qed.

(** ** The vesting calculator *)

Lemma balance_of_recipient e st stream_id s :
  streams st !! stream_id = Some s →
  balance_of e st stream_id (recipient s) =
    (block_delta ← calculate_block_delta e (timeframe s);
     recipient_balance ← uint_mul block_delta (payment_per_block s);
     uint_sub recipient_balance (withdrawn_balance s)).
Proof.
  intros Hs. unfold balance_of. rewrite Hs.
  by rewrite bool_decide_eq_true_2.
Qed.

Lemma balance_of_sender e st stream_id s :
  streams st !! stream_id = Some s →
  sender s ≠ recipient s →
  balance_of e st stream_id (sender s) =
    (block_delta ← calculate_block_delta e (timeframe s);
     recipient_balance ← uint_mul block_delta (payment_per_block s);
     uint_sub (balance s) recipient_balance).
Proof.
  intros Hs Hne. unfold balance_of. rewrite Hs.
  by rewrite bool_decide_eq_false_2, bool_decide_eq_true_2.
Qed.

Lemma balance_of_recipient_Val e st stream_id s v :
  streams st !! stream_id = Some s →
  balance_of e st stream_id (recipient s) = Val v →
  ∃ d, calculate_block_delta e (timeframe s) = Val d
       ∧ d * payment_per_block s ≤ UINT_MAX
       ∧ withdrawn_balance s ≤ d * payment_per_block s
       ∧ v = d * payment_per_block s - withdrawn_balance s.
Proof.
  intros Hs. rewrite (balance_of_recipient _ _ _ s) by done.
  destruct (calculate_block_delta e (timeframe s)) as [d|]; [|done].
  simpl. destruct (uint_mul _ _) as [rb|] eqn:Em; [|done]. simpl.
  apply uint_mul_Val in Em as [-> ?].
  intros [-> ?]%uint_sub_Val. by exists d.
Qed.

(** C3, as amended.  For the recipient, [balance-of] returns
    [elapsed * payment-per-block - withdrawn-balance] when the withdrawn
    balance does not exceed the vested amount; when it does, the
    subtraction underflows and the evaluation ends in a runtime error:
    nothing saturates to zero. *)
Theorem balance_of_recipient_subtracts_unsaturated e st stream_id s d :
  streams st !! stream_id = Some s →
  calculate_block_delta e (timeframe s) = Val d →
  d * payment_per_block s ≤ UINT_MAX →
  (withdrawn_balance s ≤ d * payment_per_block s →
     balance_of e st stream_id (recipient s)
       = Val (d * payment_per_block s - withdrawn_balance s))
  ∧ (d * payment_per_block s < withdrawn_balance s →
     balance_of e st stream_id (recipient s) = Fault ArithmeticUnderflow).
Proof.
  intros Hs Hd Hm. rewrite (balance_of_recipient _ _ _ s), Hd by done.
  simpl. unfold uint_mul. apply N.leb_le in Hm as ->. simpl.
  unfold uint_sub. split; intros Hw.
  - by apply N.leb_le in Hw as ->.
  - by apply N.leb_gt in Hw as ->.
Qed.

Lemma balance_of_recipient_subtracts_unsaturated_witness :
  balance_of (caller_at wallet_2 4) st_rate_cut 0 wallet_2
  = Fault ArithmeticUnderflow.
Proof.
  refine (proj2 (balance_of_recipient_subtracts_unsaturated
            (caller_at wallet_2 4) st_rate_cut 0
            (set_details
               (set_withdrawn_balance
                  (new_stream (caller_at wallet_1 2) wallet_2 5 (tf 0 5) 1) 4)
               0 (tf 0 5))
            4 _ _ _) _).
  - vm_compute; reflexivity.
  - reflexivity.
  - vm_compute; discriminate.
  - vm_compute; reflexivity.
Defined.

(** C3, as stated, fails: after a withdrawal of 4 and an agreed cut of the
    rate to zero, the withdrawn balance (4) exceeds the vested amount (0)
    and [balance-of] for the recipient ends in an underflow error, not in
    zero. *)
Lemma balance_of_recipient_underflows :
  streams st_rate_cut !! 0
    = Some {| sender := wallet_1; recipient := wallet_2; balance := 5;
              withdrawn_balance := 4; payment_per_block := 0;
              timeframe := tf 0 5 |}
  ∧ calculate_block_delta (caller_at wallet_2 4) (tf 0 5) = Val 4
  ∧ balance_of (caller_at wallet_2 4) st_rate_cut 0 wallet_2
    = Fault ArithmeticUnderflow.
Proof. vm_compute. done. Qed.

(** ** Withdraw *)

(** C1, as amended.  A [withdraw] by the recipient whose claimable amount
    is zero does not succeed: the zero-amount transfer is refused by
    [stx-transfer?] and [withdraw] returns that error, [(err u3)], leaving
    the state unchanged.  In particular every successful withdrawal pays a
    positive amount, and a second [withdraw] with no time advance in
    between finds a claimable amount of zero and fails with [(err u3)]. *)
Theorem withdraw_zero_claim_rejected e stream_id st s :
  streams st !! stream_id = Some s →
  contract_caller e = recipient s →
  (balance_of e st stream_id (recipient s) = Val 0 →
     withdraw e stream_id st = (Failure 3, st))
  ∧ (∀ v st', withdraw e stream_id st = (Success v, st') →
       0 < v
       ∧ balance_of e st' stream_id (recipient s) = Val 0
       ∧ withdraw e stream_id st' = (Failure 3, st')).
Proof.
  intros Hs Hc.
  assert (∀ st0 s0, streams st0 !! stream_id = Some s0 →
            recipient s0 = recipient s →
            balance_of e st0 stream_id (recipient s) = Val 0 →
            withdraw e stream_id st0 = (Failure 3, st0)) as Hzero.
  { intros st0 s0 Hs0 Hr0 Hb. rewrite withdraw_eq, Hs0, Hc, Hb.
    rewrite bool_decide_eq_true_2 by done.
    rewrite <- Hr0 in Hb.
    apply balance_of_recipient_Val in Hb as (d & _ & Hm & Hw & Hv); [|done].
    unfold uint_add.
    assert ((withdrawn_balance s0 + 0 <=? UINT_MAX) = true) as ->
      by (apply N.leb_le; lia).
    done. }
  split; [by apply (Hzero st s)|].
  intros v st' Hw. rewrite withdraw_eq, Hs, Hc in Hw.
  destruct (balance_of e st stream_id (recipient s)) as [b|] eqn:Eb; [|done].
  rewrite bool_decide_eq_true_2 in Hw by done.
  destruct (uint_add _ _) as [w'|] eqn:Ea; [|done].
  destruct (stx_transfer _ _ _ _ _) as [|l'] eqn:Et; [done|].
  simplify_eq.
  apply stx_transfer_inr_pos in Et.
  apply uint_add_Val in Ea as [-> _].
  apply balance_of_recipient_Val in Eb as (d & Hd & Hm & Hle & ->); [|done].
  assert (balance_of e
            {| streams :=
                 <[stream_id :=
                     set_withdrawn_balance s
                       (withdrawn_balance s
                        + (d * payment_per_block s - withdrawn_balance s))]>
                   (streams st);
               latest_stream_id := latest_stream_id st;
               stx := l' |} stream_id (recipient s) = Val 0) as Hb0.
  { unfold balance_of. simpl. rewrite lookup_insert_eq. simpl.
    rewrite Hd. simpl. unfold uint_mul. apply N.leb_le in Hm as ->. simpl.
    rewrite bool_decide_eq_true_2 by done.
    unfold uint_sub.
    assert ((withdrawn_balance s
             + (d * payment_per_block s - withdrawn_balance s)
             <=? d * payment_per_block s) = true) as ->
      by (apply N.leb_le; lia).
    f_equal. lia. }
  split_and!; [done|done|].
  apply (Hzero _ (set_withdrawn_balance s
                    (withdrawn_balance s
                     + (d * payment_per_block s - withdrawn_balance s))));
    [|done|done].
  simpl. apply lookup_insert_eq.
Qed.

Lemma withdraw_zero_claim_rejected_witness :
  withdraw (caller_at wallet_2 4) 0 st_withdrawn = (Failure 3, st_withdrawn).
Proof.
  refine (proj1 (withdraw_zero_claim_rejected (caller_at wallet_2 4) 0
            st_withdrawn
            (set_withdrawn_balance
               (new_stream (caller_at wallet_1 2) wallet_2 5 (tf 0 5) 1) 4)
            _ _) _).
  - vm_compute; reflexivity.
  - reflexivity.
  - vm_compute; reflexivity.
Defined.

(** C1, as stated, fails: the recipient withdraws 4 at height 4; at the
    same height the claimable amount is then zero, and a second [withdraw]
    returns [(err u3)] instead of [(ok u0)]. *)
Lemma second_withdraw_fails :
  withdraw (caller_at wallet_2 4) 0 st_created = (Success 4, st_withdrawn)
  ∧ balance_of (caller_at wallet_2 4) st_withdrawn 0 wallet_2 = Val 0
  ∧ withdraw (caller_at wallet_2 4) 0 st_withdrawn = (Failure 3, st_withdrawn).
Proof. vm_compute. done. Qed.

(** ** Refund *)

Lemma stx_transfer_inr amount from to cur l l' :
  stx_transfer amount from to cur l = inr l' →
  0 < amount ∧ from ≠ to ∧ from = cur ∧ amount ≤ stx_balance l from
  ∧ stx_balance l' to = stx_balance l to + amount
  ∧ stx_balance l' from = stx_balance l from - amount.
Proof.
  intros Ht. pose proof (stx_transfer_inr_pos _ _ _ _ _ _ Ht) as Hpos.
  unfold stx_transfer in Ht.
  destruct (amount =? 0); [done|].
  destruct (decide (from = to)) as [|Hne]; [done|].
  destruct (decide (from = cur)) as [Hcur|]; [|done].
  destruct (N.leb_spec amount (stx_balance l from)) as [Hle|]; [|done].
  cbv zeta in Ht. simplify_eq. split_and!; try done.
  - unfold stx_balance at 1. rewrite lookup_insert_eq.
    unfold stx_balance at 1. by rewrite lookup_insert_ne.
  - unfold stx_balance at 1.
    rewrite lookup_insert_ne by congruence. by rewrite lookup_insert_eq.
Qed.

(** C6, as amended.  On an existing stream whose sender and recipient are
    distinct and whose excess [balance - elapsed * payment-per-block] can
    be computed (the vested amount does not exceed the balance), [refund]
    fails with [ERR_UNAUTHORIZED] unless the caller is the sender and, the
    caller being the sender, with [ERR_STREAM_STILL_ACTIVE] unless the block
    height is past [stop-block]; a successful call returns exactly that
    excess, decrements [balance] by it and moves it from the contract to
    the sender. *)
Theorem refund_errors_and_effect e stream_id st s d :
  streams st !! stream_id = Some s →
  sender s ≠ recipient s →
  calculate_block_delta e (timeframe s) = Val d →
  d * payment_per_block s ≤ balance s →
  balance s ≤ UINT_MAX →
  (contract_caller e ≠ sender s →
     refund e stream_id st = (Failure ERR_UNAUTHORIZED, st))
  ∧ (contract_caller e = sender s →
     stacks_block_height e ≤ stop_block (timeframe s) →
     refund e stream_id st = (Failure ERR_STREAM_STILL_ACTIVE, st))
  ∧ (∀ l', contract_caller e = sender s →
       stop_block (timeframe s) < stacks_block_height e →
       stx_transfer (balance s - d * payment_per_block s) (contract_self e)
         (sender s) (contract_self e) (stx st) = inr l' →
       refund e stream_id st =
         (Success (balance s - d * payment_per_block s),
          {| streams :=
               <[stream_id :=
                   {| sender := sender s;
                      recipient := recipient s;
                      balance :=
                        balance s - (balance s - d * payment_per_block s);
                      withdrawn_balance := withdrawn_balance s;
                      payment_per_block := payment_per_block s;
                      timeframe := timeframe s |}]>
                 (streams st);
             latest_stream_id := latest_stream_id st;
             stx := l' |}))
  ∧ (∀ v st', refund e stream_id st = (Success v, st') →
       contract_caller e = sender s
       ∧ stop_block (timeframe s) < stacks_block_height e
       ∧ v = balance s - d * payment_per_block s
       ∧ 0 < v
       ∧ streams st' =
           <[stream_id :=
               {| sender := sender s;
                  recipient := recipient s;
                  balance := balance s - v;
                  withdrawn_balance := withdrawn_balance s;
                  payment_per_block := payment_per_block s;
                  timeframe := timeframe s |}]>
             (streams st)
       ∧ latest_stream_id st' = latest_stream_id st
       ∧ stx_balance (stx st') (sender s)
           = stx_balance (stx st) (sender s) + v
       ∧ stx_balance (stx st') (contract_self e)
           = stx_balance (stx st) (contract_self e) - v).
Proof.
  intros Hs Hne Hd Hle Hmax.
  assert (balance_of e st stream_id (sender s)
            = Val (balance s - d * payment_per_block s)) as Hb.
  { rewrite (balance_of_sender _ _ _ s), Hd by done. simpl.
    unfold uint_mul.
    assert ((d * payment_per_block s <=? UINT_MAX) = true) as ->
      by (apply N.leb_le; lia).
    simpl. unfold uint_sub. by apply N.leb_le in Hle as ->. }
  rewrite refund_eq, Hs, Hb. split_and!.
  - intros Hc. by rewrite bool_decide_eq_false_2.
  - intros Hc Hh. rewrite bool_decide_eq_true_2 by done.
    by apply N.ltb_ge in Hh as ->.
  - intros l' Hc Hh Ht. rewrite bool_decide_eq_true_2 by done.
    apply N.ltb_lt in Hh as ->. unfold uint_sub.
    assert ((balance s - d * payment_per_block s <=? balance s) = true) as ->
      by (apply N.leb_le; lia).
    by rewrite Ht.
  - intros v st' Hr.
    case_bool_decide as Hc; [|done].
    destruct (N.ltb_spec (stop_block (timeframe s)) (stacks_block_height e));
      [|done].
    destruct (uint_sub _ _) as [b'|] eqn:Eb; [|done].
    destruct (stx_transfer _ _ _ _ _) as [|l'] eqn:Et; [done|].
    simplify_eq. simpl.
    apply uint_sub_Val in Eb as [-> _].
    apply stx_transfer_inr in Et as (Hpos & _ & _ & _ & Hto & Hfrom).
    done.
Qed.

Lemma refund_errors_and_effect_witness :
  refund (caller_at wallet_3 6) 0 st_refuelled
  = (Failure ERR_UNAUTHORIZED, st_refuelled)
  ∧ (refund (caller_at wallet_1 6) 0 st_refuelled).1 = Success (10 - 5 * 1)
  ∧ streams (refund (caller_at wallet_1 6) 0 st_refuelled).2 !! 0
    = Some {| sender := wallet_1; recipient := wallet_2;
              balance := 10 - (10 - 5 * 1); withdrawn_balance := 0;
              payment_per_block := 1; timeframe := tf 0 5 |}.
Proof.
  assert (streams st_refuelled !! 0
          = Some {| sender := wallet_1; recipient := wallet_2; balance := 10;
                    withdrawn_balance := 0; payment_per_block := 1;
                    timeframe := tf 0 5 |}) as Hs
    by (vm_compute; reflexivity).
  split.
  - refine (proj1 (refund_errors_and_effect (caller_at wallet_3 6) 0
              st_refuelled _ 5 Hs _ _ _ _) _).
    + discriminate.
    + reflexivity.
    + vm_compute; discriminate.
    + vm_compute; discriminate.
    + discriminate.
  - destruct (refund_errors_and_effect (caller_at wallet_1 6) 0
                st_refuelled _ 5 Hs) as (_ & _ & Hok & _).
    + discriminate.
    + reflexivity.
    + vm_compute; discriminate.
    + vm_compute; discriminate.
    + erewrite Hok; [|reflexivity|reflexivity|vm_compute; reflexivity].
      split; [reflexivity|]. simpl. apply lookup_insert_eq.
Defined.

(** C6, as stated, fails.  On a stream [wallet_1] pays to itself (balance
    20, five blocks at 1 per block) [refund] after the stop block returns 5
    and leaves a balance of 15, where the excess [balance - elapsed * rate]
    is 15.  On a stream funded with 5 that vests 10 per block, [refund]
    called by a third party ends in an underflow error rather than in
    [ERR_UNAUTHORIZED]. *)
Lemma refund_self_stream_and_underfunded :
  streams st_self !! 0
    = Some {| sender := wallet_1; recipient := wallet_1; balance := 20;
              withdrawn_balance := 0; payment_per_block := 1;
              timeframe := tf 0 5 |}
  ∧ calculate_block_delta (caller_at wallet_1 6) (tf 0 5) = Val 5
  ∧ (refund (caller_at wallet_1 6) 0 st_self).1 = Success 5
  ∧ balance <$> streams (refund (caller_at wallet_1 6) 0 st_self).2 !! 0
    = Some 15
  ∧ streams st_underfunded !! 0
    = Some {| sender := wallet_1; recipient := wallet_2; balance := 5;
              withdrawn_balance := 0; payment_per_block := 10;
              timeframe := tf 0 5 |}
  ∧ (refund (caller_at wallet_3 6) 0 st_underfunded).1
    = RuntimeError ArithmeticUnderflow.
Proof. vm_compute. done. Qed.

(** ** Withdrawals stay within the vested amount *)

Lemma calculate_block_delta_height e e' t :
  stacks_block_height e = stacks_block_height e' →
  calculate_block_delta e t = calculate_block_delta e' t.
Proof. unfold calculate_block_delta. by intros ->. Qed.

Lemma calculate_block_delta_mono e e' t d :
  start_block t < stop_block t →
  stacks_block_height e ≤ stacks_block_height e' →
  calculate_block_delta e t = Val d →
  ∃ d', calculate_block_delta e' t = Val d' ∧ d ≤ d'.
Proof.
  unfold calculate_block_delta, uint_sub. intros Ht Hh.
  repeat match goal with
         | |- context [N.leb ?a ?b] => destruct (N.leb_spec a b)
         | |- context [N.ltb ?a ?b] => destruct (N.ltb_spec a b)
         end; try (exfalso; lia);
    intros [= <-]; eexists; (split; [done|]); lia.
Qed.

Lemma calculate_block_delta_defined e t :
  start_block t < stop_block t → ∃ d, calculate_block_delta e t = Val d.
Proof.
  unfold calculate_block_delta, uint_sub. intros Ht.
  repeat match goal with
         | |- context [N.leb ?a ?b] => destruct (N.leb_spec a b)
         | |- context [N.ltb ?a ?b] => destruct (N.ltb_spec a b)
         end; try (exfalso; lia); by eexists.
Qed.

Lemma vesting_invariant_insert st h i s' l' n :
  vesting_invariant st h →
  (start_block (timeframe s') < stop_block (timeframe s')
   ∧ ∀ e, stacks_block_height e = h → withdrawn_within_vested e s') →
  vesting_invariant
    {| streams := <[i := s']> (streams st);
       latest_stream_id := n;
       stx := l' |} h.
Proof.
  intros Hinv Hs' j s. simpl. rewrite lookup_insert.
  case_decide; [by intros [= <-]|]. apply Hinv.
Qed.

Section Vesting.
Context `{Crypto}.

Lemma vesting_invariant_exec e c st :
  not_update c = true →
  vesting_invariant st (stacks_block_height e) →
  vesting_invariant (exec e c st) (stacks_block_height e).
Proof.
  intros Hc Hinv. destruct c; simpl; try done.
  - rewrite stream_to_eq.
    destruct (N.ltb_spec (start_block timeframe_) (stop_block timeframe_))
      as [Hlt|]; [|done].
    repeat case_match; simpl; try done.
    apply vesting_invariant_insert; [done|]. split; [done|].
    intros e' He'.
    destruct (calculate_block_delta_defined e' timeframe_ Hlt) as [d Hd].
    exists d. split; [done|]. simpl. lia.
  - rewrite refuel_eq.
    destruct (streams st !! stream_id) as [s|] eqn:Hs; [|done].
    repeat case_match; simpl; try done.
    apply vesting_invariant_insert; [done|]. exact (Hinv stream_id s Hs).
  - rewrite withdraw_eq.
    destruct (streams st !! stream_id) as [s|] eqn:Hs; [|done].
    destruct (balance_of _ _ _ _) as [b|] eqn:Eb; [|done].
    case_bool_decide as Hcaller; [|done].
    destruct (uint_add _ _) as [w'|] eqn:Ea; [|done].
    destruct (stx_transfer _ _ _ _ _); [done|]. simpl.
    apply vesting_invariant_insert; [done|].
    destruct (Hinv stream_id s Hs) as [Hlt _]. split; [done|].
    intros e' He'. rewrite Hcaller in Eb.
    apply balance_of_recipient_Val in Eb as (d & Hd & _ & Hle & ->); [|done].
    apply uint_add_Val in Ea as [-> _].
    exists d. split; [|simpl; lia].
    simpl. by rewrite (calculate_block_delta_height e' e).
  - rewrite refund_eq.
    destruct (streams st !! stream_id) as [s|] eqn:Hs; [|done].
    repeat case_match; simpl; try done.
    apply vesting_invariant_insert; [done|]. exact (Hinv stream_id s Hs).
Qed.

Lemma vesting_invariant_wait st h h' :
  h ≤ h' → vesting_invariant st h → vesting_invariant st h'.
Proof.
  intros Hh Hinv i s Hs. destruct (Hinv i s Hs) as [Hlt Hw].
  split; [done|]. intros e' He'.
  destruct (Hw {| tx_sender := tx_sender e';
                  contract_caller := contract_caller e';
                  contract_self := contract_self e';
                  stacks_block_height := h |} eq_refl) as (d & Hd & Hle).
  eapply (calculate_block_delta_mono _ e') in Hd as (d' & Hd' & Hdd');
    [|done|simpl; lia].
  exists d'. split; [done|]. nia.
Qed.

Lemma reachable_vesting_invariant st h :
  reachable not_update st h → vesting_invariant st h.
Proof.
  induction 1 as [l h|st h h' _ IH Hh|st h e c _ IH He Hc].
  - intros i s. simpl. by rewrite lookup_empty.
  - by eapply vesting_invariant_wait.
  - subst h. by apply vesting_invariant_exec.
Qed.

(** C4, as amended.  In every state reachable by [stream-to], [refuel],
    [withdraw] and [refund] calls (no [update-details]), at every block
    height from the last call on, each stream's withdrawn balance is at
    most [elapsed * payment-per-block] for its rate and timeframe. *)
Theorem withdrawn_within_vested_without_updates st h i s e :
  reachable not_update st h →
  streams st !! i = Some s →
  stacks_block_height e = h →
  withdrawn_within_vested e s.
Proof.
  intros Hr Hs He. apply reachable_vesting_invariant in Hr.
  by apply (Hr i s Hs).
Qed.

End Vesting.

Lemma withdrawn_within_vested_without_updates_witness :
  withdrawn_within_vested (caller_at wallet_2 9)
    (set_withdrawn_balance
       (new_stream (caller_at wallet_1 2) wallet_2 5 (tf 0 5) 1) 4).
Proof.
  refine (withdrawn_within_vested_without_updates (H:=ideal_crypto)
            st_withdrawn 9 0 _ (caller_at wallet_2 9) _ _ _).
  - apply (reachable_wait _ _ 4 9); [|lia].
    change st_withdrawn
      with (exec (H:=ideal_crypto) (caller_at wallet_2 4) (Withdraw 0)
              st_created).
    apply reachable_call; [|reflexivity|reflexivity].
    apply (reachable_wait _ _ 2 4); [|lia].
    change st_created
      with (exec (H:=ideal_crypto) (caller_at wallet_1 2)
              (StreamTo wallet_2 5 (tf 0 5) 1) (deployed funded)).
    apply reachable_call; [constructor|reflexivity|reflexivity].
  - vm_compute; reflexivity.
  - reflexivity.
Defined.

(** C4, as stated, fails: [wallet_1] streams 5 over blocks 0 to 5 at 1 per
    block, [wallet_2] withdraws 4 at height 4, then both agree to a rate of
    zero.  In the state reached the withdrawn balance is 4 and the vested
    amount under the current rate is [4 * 0]. *)
Lemma rate_cut_breaks_vesting_bound :
  reachable (H:=ideal_crypto) any_call st_rate_cut 4
  ∧ streams st_rate_cut !! 0
    = Some {| sender := wallet_1; recipient := wallet_2; balance := 5;
              withdrawn_balance := 4; payment_per_block := 0;
              timeframe := tf 0 5 |}
  ∧ ¬ withdrawn_within_vested (caller_at wallet_2 4)
        {| sender := wallet_1; recipient := wallet_2; balance := 5;
           withdrawn_balance := 4; payment_per_block := 0;
           timeframe := tf 0 5 |}.
Proof.
  split_and!.
  - change st_rate_cut
      with (exec (H:=ideal_crypto) (caller_at wallet_1 4)
              (UpdateDetails 0 0 (tf 0 5) wallet_2
                 (consent 2 st_withdrawn 0 0 (tf 0 5)))
              st_withdrawn).
    apply reachable_call; [|reflexivity|reflexivity].
    change st_withdrawn
      with (exec (H:=ideal_crypto) (caller_at wallet_2 4) (Withdraw 0)
              st_created).
    apply reachable_call; [|reflexivity|reflexivity].
    apply (reachable_wait _ _ 2 4); [|lia].
    change st_created
      with (exec (H:=ideal_crypto) (caller_at wallet_1 2)
              (StreamTo wallet_2 5 (tf 0 5) 1) (deployed funded)).
    apply reachable_call; [constructor|reflexivity|reflexivity].
  - vm_compute; reflexivity.
  - intros (d & Hd & Hle). vm_compute in Hd. simplify_eq. simpl in Hle. lia.
Qed.

(** ** The contract's own test-suite, replayed *)

Example test_stream_created :
  latest_stream_id st_created = 1
  ∧ streams st_created !! 0
    = Some {| sender := wallet_1; recipient := wallet_2; balance := 5;
              withdrawn_balance := 0; payment_per_block := 1;
              timeframe := tf 0 5 |}.
Proof. vm_compute. done. Qed.

Example test_refuel :
  (refuel (caller_at wallet_1 3) 0 5 st_created).1 = Success 5
  ∧ balance <$> streams (refuel (caller_at wallet_1 3) 0 5 st_created).2 !! 0
    = Some 10.
Proof. vm_compute. done. Qed.

Example test_refuel_by_random_address :
  refuel (caller_at wallet_3 3) 0 5 st_created
  = (Failure ERR_UNAUTHORIZED, st_created).
Proof. vm_compute. done. Qed.

Example test_withdraw_over_time :
  (withdraw (caller_at wallet_2 4) 0 st_created).1 = Success 4.
Proof. vm_compute. done. Qed.

Example test_withdraw_by_non_recipient :
  withdraw (caller_at wallet_3 4) 0 st_created
  = (Failure ERR_UNAUTHORIZED, st_created).
Proof. vm_compute. done. Qed.

Example test_refund_excess :
  (refund (caller_at wallet_1 7) 0
     (withdraw (caller_at wallet_2 6) 0
        (refuel (caller_at wallet_1 3) 0 5 st_created).2).2).1
  = Success 5.
Proof. vm_compute. done. Qed.

Example test_update_details :
  streams
    (update_details (H:=ideal_crypto) (caller_at wallet_2 3) 0 1 (tf 0 4)
       wallet_1 (consent 1 st_created 0 1 (tf 0 4)) st_created).2 !! 0
  = Some {| sender := wallet_1; recipient := wallet_2; balance := 5;
            withdrawn_balance := 0; payment_per_block := 1;
            timeframe := tf 0 4 |}.
Proof. vm_compute. done. Qed.

(** * Further properties of the contract *)

(** ** The block delta *)

Lemma block_delta_closed_form e t :
  start_block t ≤ stop_block t →
  calculate_block_delta e t
    = Val (N.min (stacks_block_height e) (stop_block t) - start_block t).
Proof.
  intros Ht. unfold calculate_block_delta, uint_sub.
  destruct (N.leb_spec (stacks_block_height e) (start_block t));
    [f_equal; lia|].
  destruct (N.ltb_spec (stacks_block_height e) (stop_block t)).
  - destruct (N.leb_spec (start_block t) (stacks_block_height e));
      [f_equal|]; lia.
  - destruct (N.leb_spec (start_block t) (stop_block t)); [f_equal|]; lia.
Qed.

(** X1. For a timeframe that does not stop before it starts,
    [calculate-block-delta] is the number of blocks between the start
    block and the current height capped at the stop block (zero before
    the start), and never more than the length of the timeframe. *)
Theorem calculate_block_delta_elapsed e t :
  start_block t ≤ stop_block t →
  calculate_block_delta e t
    = Val (N.min (stacks_block_height e) (stop_block t) - start_block t)
  ∧ N.min (stacks_block_height e) (stop_block t) - start_block t
    ≤ stop_block t - start_block t.
Proof.
  intros Ht. split; [|lia].
  unfold calculate_block_delta, uint_sub.
  repeat match goal with
         | |- context [N.leb ?a ?b] => destruct (N.leb_spec a b)
         | |- context [N.ltb ?a ?b] => destruct (N.ltb_spec a b)
         end; try (exfalso; lia); f_equal; lia.
Qed.

Lemma calculate_block_delta_elapsed_witness :
  calculate_block_delta (caller_at wallet_2 9) (tf 2 5) = Val (N.min 9 5 - 2)
  ∧ N.min 9 5 - 2 ≤ 5 - 2.
Proof.
  apply (calculate_block_delta_elapsed (caller_at wallet_2 9) (tf 2 5)).
  simpl. lia.
Defined.

(** X2. Once a stream's timeframe stops before it starts (which
    [update-details] can store), from the block after its start block on
    the block delta underflows: [balance-of] ends in a runtime error for
    every principal, and [withdraw] and [refund] abort for every caller.
    Up to the start block the delta is zero. *)
Theorem inverted_timeframe_blocks_stream e st stream_id s :
  streams st !! stream_id = Some s →
  stop_block (timeframe s) < start_block (timeframe s) →
  (stacks_block_height e ≤ start_block (timeframe s) →
     calculate_block_delta e (timeframe s) = Val 0)
  ∧ (start_block (timeframe s) < stacks_block_height e →
     calculate_block_delta e (timeframe s) = Fault ArithmeticUnderflow
     ∧ (∀ who, balance_of e st stream_id who = Fault ArithmeticUnderflow)
     ∧ withdraw e stream_id st = (RuntimeError ArithmeticUnderflow, st)
     ∧ refund e stream_id st = (RuntimeError ArithmeticUnderflow, st)).
Proof.
  intros Hs Hinv. split.
  - intros Hh. unfold calculate_block_delta.
    by apply N.leb_le in Hh as ->.
  - intros Hh.
    assert (calculate_block_delta e (timeframe s) = Fault ArithmeticUnderflow)
      as Hd.
    { unfold calculate_block_delta, uint_sub.
      repeat match goal with
             | |- context [N.leb ?a ?b] => destruct (N.leb_spec a b)
             | |- context [N.ltb ?a ?b] => destruct (N.ltb_spec a b)
             end; try (exfalso; lia); done. }
    assert (∀ who, balance_of e st stream_id who = Fault ArithmeticUnderflow)
      as Hb.
    { intros who. unfold balance_of. by rewrite Hs, Hd. }
    split_and!; [done|done| |].
    + by rewrite withdraw_eq, Hs, Hb.
    + by rewrite refund_eq, Hs, Hb.
Qed.

Lemma inverted_timeframe_blocks_stream_witness :
  withdraw (caller_at wallet_2 5) 0 st_inverted
  = (RuntimeError ArithmeticUnderflow, st_inverted).
Proof.
  refine (proj1 (proj2 (proj2 (proj2
    (inverted_timeframe_blocks_stream (caller_at wallet_2 5) st_inverted 0
       (set_details (new_stream (caller_at wallet_1 2) wallet_2 5 (tf 0 5) 1)
          1 (tf 4 2))
       _ _) _)))).
  - vm_compute; reflexivity.
  - simpl. lia.
  - simpl. lia.
Defined.

(** ** Balances *)

(** X3. While a stream is not touched, what its recipient can claim never
    shrinks as blocks pass: if [balance-of] for the recipient returns a
    value at some height, then at every later height it returns a value at
    least as large (the timeframe not stopping before it starts, and the
    amount vested over the whole timeframe fitting a [uint]). *)
Theorem recipient_claimable_grows_with_height e e' st stream_id s v :
  streams st !! stream_id = Some s →
  start_block (timeframe s) ≤ stop_block (timeframe s) →
  (stop_block (timeframe s) - start_block (timeframe s))
    * payment_per_block s ≤ UINT_MAX →
  stacks_block_height e ≤ stacks_block_height e' →
  balance_of e st stream_id (recipient s) = Val v →
  ∃ v', balance_of e' st stream_id (recipient s) = Val v' ∧ v ≤ v'.
Proof.
  intros Hs Ht Hfit Hh Hb.
  apply balance_of_recipient_Val in Hb as (d & Hd & Hm & Hw & ->); [|done].
  rewrite (balance_of_recipient _ _ _ s) by done.
  pose proof (block_delta_closed_form e _ Ht) as Hde.
  pose proof (block_delta_closed_form e' _ Ht) as Hde'.
  rewrite Hde in Hd. injection Hd as <-. rewrite Hde'. simpl.
  remember (N.min (stacks_block_height e) (stop_block (timeframe s))
            - start_block (timeframe s)) as d eqn:Ed.
  remember (N.min (stacks_block_height e') (stop_block (timeframe s))
            - start_block (timeframe s)) as d' eqn:Ed'.
  assert (d ≤ d') as Hdd by lia.
  assert (d * payment_per_block s ≤ d' * payment_per_block s) as Hle
    by (by apply N.mul_le_mono_r).
  assert (d' * payment_per_block s ≤ UINT_MAX) as Hm'.
  { etrans; [|exact Hfit]. apply N.mul_le_mono_r. lia. }
  unfold uint_mul. apply N.leb_le in Hm' as ->. simpl.
  unfold uint_sub.
  assert ((withdrawn_balance s <=? d' * payment_per_block s) = true) as ->
    by (apply N.leb_le; lia).
  eexists. split; [done|]. lia.
Qed.

Lemma recipient_claimable_grows_with_height_witness :
  ∃ v', balance_of (caller_at wallet_2 9) st_withdrawn 0 wallet_2 = Val v'
        ∧ 0 ≤ v'.
Proof.
  refine (recipient_claimable_grows_with_height (caller_at wallet_2 4)
            (caller_at wallet_2 9) st_withdrawn 0
            (set_withdrawn_balance
               (new_stream (caller_at wallet_1 2) wallet_2 5 (tf 0 5) 1) 4)
            0 _ _ _ _ _).
  - vm_compute; reflexivity.
  - simpl. lia.
  - vm_compute; discriminate.
  - simpl. lia.
  - vm_compute; reflexivity.
Defined.

(** X4. On a stream whose sender and recipient are distinct, whenever both
    balances can be computed, what the recipient can claim and what the
    sender could reclaim add up to the stored balance less the withdrawn
    balance. *)
Theorem claimable_and_excess_split_balance e st stream_id s r x :
  streams st !! stream_id = Some s →
  sender s ≠ recipient s →
  balance_of e st stream_id (recipient s) = Val r →
  balance_of e st stream_id (sender s) = Val x →
  r + x + withdrawn_balance s = balance s.
Proof.
  intros Hs Hne Hr Hx.
  apply balance_of_recipient_Val in Hr as (d & Hd & Hm & Hw & ->); [|done].
  rewrite (balance_of_sender _ _ _ s), Hd in Hx by done. simpl in Hx.
  unfold uint_mul in Hx. apply N.leb_le in Hm as Hm'. rewrite Hm' in Hx.
  simpl in Hx. apply uint_sub_Val in Hx as [-> Hle]. lia.
Qed.

Lemma claimable_and_excess_split_balance_witness :
  1 + 5 + 4 = 10.
Proof.
  refine (claimable_and_excess_split_balance (caller_at wallet_2 9)
            (refuel (caller_at wallet_1 5) 0 5 st_withdrawn).2 0
            (set_balance
               (set_withdrawn_balance
                  (new_stream (caller_at wallet_1 2) wallet_2 5 (tf 0 5) 1) 4)
               10)
            1 5 _ _ _ _).
  - vm_compute; reflexivity.
  - discriminate.
  - vm_compute; reflexivity.
  - vm_compute; reflexivity.
Defined.

(** X5. [balance-of] never reports a non-zero balance to a principal that
    is neither the recipient nor the sender of the stream, nor for an
    identifier that is not in use; for an unused identifier it returns zero
    outright. *)
Theorem balance_of_outsider_is_zero e st stream_id who :
  (streams st !! stream_id = None → balance_of e st stream_id who = Val 0)
  ∧ (∀ v, balance_of e st stream_id who = Val v →
       (streams st !! stream_id = None
        ∨ ∃ s, streams st !! stream_id = Some s
               ∧ who ≠ recipient s ∧ who ≠ sender s) →
       v = 0).
Proof.
  unfold balance_of. split.
  - by intros ->.
  - intros v Hb [Hn|(s & Hs & Hr & Hsd)].
    + rewrite Hn in Hb. by injection Hb.
    + rewrite Hs in Hb.
      destruct (calculate_block_delta _ _); [|done]. simpl in Hb.
      destruct (uint_mul _ _); [|done]. simpl in Hb.
      rewrite !bool_decide_eq_false_2 in Hb by done. by injection Hb.
Qed.

(** ** Withdraw *)

(** X6. [withdraw] fails with [ERR_INVALID_STREAM_ID] for an unused
    identifier and, when the caller's balance can be computed, with
    [ERR_UNAUTHORIZED] for a caller other than the recipient.  A
    successful call is made by the recipient, pays the positive amount
    [elapsed * payment-per-block - withdrawn-balance], adds it to the
    withdrawn balance and to the recipient's STX, takes it from the
    contract's STX, and leaves the stored [balance] and every other field
    as they were. *)
Theorem withdraw_errors_and_effect e stream_id st :
  (streams st !! stream_id = None →
     withdraw e stream_id st = (Failure ERR_INVALID_STREAM_ID, st))
  ∧ (∀ s b, streams st !! stream_id = Some s →
       contract_caller e ≠ recipient s →
       balance_of e st stream_id (contract_caller e) = Val b →
       withdraw e stream_id st = (Failure ERR_UNAUTHORIZED, st))
  ∧ (∀ v st', withdraw e stream_id st = (Success v, st') →
       ∃ s d, streams st !! stream_id = Some s
         ∧ contract_caller e = recipient s
         ∧ calculate_block_delta e (timeframe s) = Val d
         ∧ v = d * payment_per_block s - withdrawn_balance s
         ∧ 0 < v
         ∧ streams st' =
             <[stream_id :=
                 {| sender := sender s;
                    recipient := recipient s;
                    balance := balance s;
                    withdrawn_balance := withdrawn_balance s + v;
                    payment_per_block := payment_per_block s;
                    timeframe := timeframe s |}]>
               (streams st)
         ∧ latest_stream_id st' = latest_stream_id st
         ∧ stx_balance (stx st') (recipient s)
           = stx_balance (stx st) (recipient s) + v
         ∧ stx_balance (stx st') (contract_self e)
           = stx_balance (stx st) (contract_self e) - v).
Proof.
  rewrite withdraw_eq. split_and!.
  - by intros ->.
  - intros s b -> Hne ->. by rewrite bool_decide_eq_false_2.
  - intros v st' Hw.
    destruct (streams st !! stream_id) as [s|] eqn:Hs; [|done].
    destruct (balance_of _ _ _ _) as [b|] eqn:Eb; [|done].
    case_bool_decide as Hc; [|done].
    destruct (uint_add _ _) as [w'|] eqn:Ea; [|done].
    destruct (stx_transfer _ _ _ _ _) as [|l'] eqn:Et; [done|].
    simplify_eq. rewrite Hc in Eb.
    apply balance_of_recipient_Val in Eb as (d & Hd & _ & _ & ->); [|done].
    apply uint_add_Val in Ea as [-> _].
    apply stx_transfer_inr in Et as (Hpos & _ & _ & _ & Hto & Hfrom).
    exists s, d. simpl. split_and!; done.
Qed.

(** X7. What [withdraw] pays does not depend on the stream's stored
    [balance]: with any other value in that field the outcome is the same.
    The payout is bounded by the STX the contract holds, not by what was
    deposited for the stream. *)
Theorem withdraw_payout_ignores_balance e stream_id st s b :
  streams st !! stream_id = Some s →
  contract_caller e = recipient s →
  (withdraw e stream_id
     {| streams := <[stream_id := set_balance s b]> (streams st);
        latest_stream_id := latest_stream_id st;
        stx := stx st |}).1
  = (withdraw e stream_id st).1.
Proof.
  intros Hs Hc.
  rewrite !withdraw_eq. simpl. rewrite lookup_insert_eq, Hs.
  unfold balance_of. simpl. rewrite lookup_insert_eq, Hs. simpl.
  destruct (calculate_block_delta _ _); [|done]. simpl.
  destruct (uint_mul _ _); [|done]. simpl.
  rewrite !bool_decide_eq_true_2 by done.
  destruct (uint_sub _ _); [|done].
  destruct (uint_add _ _); [|done]. simpl.
  by destruct (stx_transfer _ _ _ _ _).
Qed.

Lemma withdraw_payout_ignores_balance_witness :
  (withdraw (caller_at wallet_3 1) 1
     {| streams :=
          <[1 := set_balance
                   (new_stream (caller_at wallet_3 0) wallet_3 5 (tf 0 5) 10)
                   1000]> (streams st_shared);
        latest_stream_id := latest_stream_id st_shared;
        stx := stx st_shared |}).1
  = (withdraw (caller_at wallet_3 1) 1 st_shared).1
  ∧ (withdraw (caller_at wallet_3 1) 1 st_shared).1 = Success 10
  ∧ balance <$> streams st_shared !! 1 = Some 5.
Proof.
  split; [|vm_compute; done].
  apply (withdraw_payout_ignores_balance (caller_at wallet_3 1) 1 st_shared
           (new_stream (caller_at wallet_3 0) wallet_3 5 (tf 0 5) 10) 1000).
  - vm_compute; reflexivity.
  - reflexivity.
Defined.

(** ** Effects of a call on the table and on the ledger *)

Lemma stx_transfer_other amount from to cur l l' p :
  stx_transfer amount from to cur l = inr l' →
  p ≠ from → p ≠ to → stx_balance l' p = stx_balance l p.
Proof.
  unfold stx_transfer. intros Ht Hf Hto.
  repeat case_match; simplify_eq.
  unfold stx_balance. by rewrite !lookup_insert_ne.
Qed.

Section Effects.
Context `{Crypto}.

Lemma is_Some_insert_existing (m : gmap N stream_t) i s s' j :
  m !! i = Some s → is_Some (<[i := s']> m !! j) ↔ is_Some (m !! j).
Proof.
  intros Hi. rewrite lookup_insert_is_Some. split.
  - intros [<-|[_ ?]]; [by rewrite Hi|done].
  - intros Hj. destruct (decide (i = j)); [by left|by right].
Qed.

(** X8. A call touches at most the stream it addresses: every other
    stream's record is left as it was.  Only [stream-to] changes
    [latest-stream-id] or the set of identifiers in use. *)
Theorem exec_leaves_other_streams e c st :
  (∀ j, j ≠ call_target st c →
     streams (exec e c st) !! j = streams st !! j)
  ∧ match c with
    | StreamTo _ _ _ _ => True
    | _ => latest_stream_id (exec e c st) = latest_stream_id st
           ∧ ∀ j, is_Some (streams (exec e c st) !! j)
                  ↔ is_Some (streams st !! j)
    end.
Proof.
  destruct c; simpl.
  - split; [|done]. rewrite stream_to_eq.
    repeat case_match; simpl; try done.
    intros j Hj. by rewrite lookup_insert_ne.
  - rewrite refuel_eq.
    destruct (streams st !! stream_id) as [s|] eqn:Hs; [|done].
    repeat case_match; simpl; try done.
    split_and!; [|done|].
    + intros j Hj. by rewrite lookup_insert_ne.
    + intros j. by eapply is_Some_insert_existing.
  - rewrite withdraw_eq.
    destruct (streams st !! stream_id) as [s|] eqn:Hs; [|done].
    repeat case_match; simpl; try done.
    split_and!; [|done|].
    + intros j Hj. by rewrite lookup_insert_ne.
    + intros j. by eapply is_Some_insert_existing.
  - rewrite refund_eq.
    destruct (streams st !! stream_id) as [s|] eqn:Hs; [|done].
    repeat case_match; simpl; try done.
    split_and!; [|done|].
    + intros j Hj. by rewrite lookup_insert_ne.
    + intros j. by eapply is_Some_insert_existing.
  - rewrite update_details_eq.
    destruct (streams st !! stream_id) as [s|] eqn:Hs; [|done].
    repeat case_match; simpl; try done.
    split_and!; [|done|].
    + intros j Hj. by rewrite lookup_insert_ne.
    + intros j. by eapply is_Some_insert_existing.
Qed.

(** One call keeps every stream in place with its two parties, and does
    not lower its withdrawn balance. *)
Lemma exec_keeps_stream e c st i s :
  ids_sequential st →
  streams st !! i = Some s →
  ∃ s', streams (exec e c st) !! i = Some s'
        ∧ sender s' = sender s ∧ recipient s' = recipient s
        ∧ withdrawn_balance s ≤ withdrawn_balance s'.
Proof.
  intros Hseq Hi.
  assert (∀ (m : gmap N stream_t) k s0,
            m !! i = Some s →
            (k = i → sender s0 = sender s ∧ recipient s0 = recipient s
                     ∧ withdrawn_balance s ≤ withdrawn_balance s0) →
            ∃ s', <[k := s0]> m !! i = Some s'
                  ∧ sender s' = sender s ∧ recipient s' = recipient s
                  ∧ withdrawn_balance s ≤ withdrawn_balance s') as Hins.
  { intros m k s0 Hm Hk. rewrite lookup_insert. case_decide as Hki.
    - exists s0. split; [done|]. by apply Hk.
    - exists s. rewrite Hm. split_and!; done. }
  assert (∃ s', streams st !! i = Some s'
                ∧ sender s' = sender s ∧ recipient s' = recipient s
                ∧ withdrawn_balance s ≤ withdrawn_balance s') as Hsame.
  { exists s. split_and!; done. }
  destruct c; simpl.
  - rewrite stream_to_eq. repeat case_match; simpl; try done.
    apply Hins; [done|]. intros Hk.
    assert (i < latest_stream_id st) as Hlt by (apply Hseq; by rewrite Hi).
    lia.
  - rewrite refuel_eq.
    destruct (streams st !! stream_id) as [s0|] eqn:Hs; [|done].
    repeat case_match; simpl; try done.
    apply Hins; [done|]. intros ->. simplify_eq. simpl.
    split_and!; try done; lia.
  - rewrite withdraw_eq.
    destruct (streams st !! stream_id) as [s0|] eqn:Hs; [|done].
    repeat case_match; simpl; try done.
    apply Hins; [done|]. intros ->. simplify_eq. simpl.
    match goal with Hu : uint_add _ _ = Val _ |- _ =>
      apply uint_add_Val in Hu as [-> _] end.
    split_and!; try done; lia.
  - rewrite refund_eq.
    destruct (streams st !! stream_id) as [s0|] eqn:Hs; [|done].
    repeat case_match; simpl; try done.
    apply Hins; [done|]. intros ->. simplify_eq. simpl.
    split_and!; try done; lia.
  - rewrite update_details_eq.
    destruct (streams st !! stream_id) as [s0|] eqn:Hs; [|done].
    repeat case_match; simpl; try done.
    apply Hins; [done|]. intros ->. simplify_eq. simpl.
    split_and!; try done; lia.
Qed.

(** X9. Along any sequence of calls, from a state whose identifiers are
    sequential, a stream once created stays in the table, keeps its sender
    and its recipient, and its withdrawn balance never decreases. *)
Theorem stream_persists_parties_fixed_withdrawn_grows st st' i s :
  ids_sequential st →
  evolves st st' →
  streams st !! i = Some s →
  ∃ s', streams st' !! i = Some s'
        ∧ sender s' = sender s ∧ recipient s' = recipient s
        ∧ withdrawn_balance s ≤ withdrawn_balance s'.
Proof.
  intros Hseq Hev Hi.
  assert (ids_sequential st'
          ∧ ∃ s', streams st' !! i = Some s'
                  ∧ sender s' = sender s ∧ recipient s' = recipient s
                  ∧ withdrawn_balance s ≤ withdrawn_balance s') as [_ ?];
    [|done].
  induction Hev as [st|st st1 e c Hev IH].
  - split; [done|]. exists s. split_and!; try done; lia.
  - destruct (IH Hseq Hi) as (Hseq1 & s1 & H1 & Hsd & Hrc & Hw).
    split; [by apply ids_sequential_exec|].
    destruct (exec_keeps_stream e c st1 i s1 Hseq1 H1)
      as (s2 & H2 & Hsd2 & Hrc2 & Hw2).
    exists s2. split_and!; [done|congruence|congruence|lia].
Qed.

End Effects.

Lemma stream_persists_parties_fixed_withdrawn_grows_witness :
  ∃ s', streams st_rate_cut !! 0 = Some s'
        ∧ sender s' = wallet_1 ∧ recipient s' = wallet_2
        ∧ 0 ≤ withdrawn_balance s'.
Proof.
  refine (stream_persists_parties_fixed_withdrawn_grows (H:=ideal_crypto)
            st_created st_rate_cut 0
            (new_stream (caller_at wallet_1 2) wallet_2 5 (tf 0 5) 1)
            _ _ _).
  - apply (reachable_ids_sequential (H:=ideal_crypto) any_call _ 2).
    change st_created
      with (exec (H:=ideal_crypto) (caller_at wallet_1 2)
              (StreamTo wallet_2 5 (tf 0 5) 1) (deployed funded)).
    apply reachable_call; [constructor|reflexivity|reflexivity].
  - change st_rate_cut
      with (exec (H:=ideal_crypto) (caller_at wallet_1 4)
              (UpdateDetails 0 0 (tf 0 5) wallet_2
                 (consent 2 st_withdrawn 0 0 (tf 0 5)))
              (exec (H:=ideal_crypto) (caller_at wallet_2 4) (Withdraw 0)
                 st_created)).
    do 2 apply evolves_step. apply evolves_refl.
  - vm_compute; reflexivity.
Defined.

Lemma stx_transfer_decrease amount from to cur l l' p :
  stx_transfer amount from to cur l = inr l' →
  stx_balance l' p < stx_balance l p →
  p = from ∧ from = cur.
Proof.
  intros Ht Hlt.
  pose proof (stx_transfer_inr _ _ _ _ _ _ Ht) as (_ & _ & Hcur & _ & Hto & _).
  split; [|done].
  destruct (decide (p = from)) as [|Hf]; [done|].
  destruct (decide (p = to)) as [->|Hto'].
  - lia.
  - rewrite (stx_transfer_other _ _ _ _ _ _ p Ht) in Hlt by done. lia.
Qed.

Section Ledger.
Context `{Crypto}.

(** X10. A call lowers the STX balance of no principal other than the
    one it takes a deposit from or the contract itself: a balance can fall
    only for the caller of [stream-to] or [refuel], who must then also be
    the transaction's sender, or for the contract in a [withdraw] or
    [refund].  [update-details] lowers no balance at all. *)
Theorem exec_debits_only_depositor_or_contract e c st p :
  stx_balance (stx (exec e c st)) p < stx_balance (stx st) p →
  ((∃ r b t q, c = StreamTo r b t q) ∨ (∃ i a, c = Refuel i a))
  ∧ p = contract_caller e ∧ p = tx_sender e
  ∨ ((∃ i, c = Withdraw i) ∨ (∃ i, c = Refund i))
    ∧ p = contract_self e.
Proof.
  destruct c; simpl.
  - rewrite stream_to_eq. repeat case_match; simpl; try lia.
    intros Hlt. left.
    match goal with Ht : stx_transfer _ _ _ _ _ = inr _ |- _ =>
      destruct (stx_transfer_decrease _ _ _ _ _ _ _ Ht Hlt) as [-> <-] end.
    split; [|done]. left. by do 4 eexists.
  - rewrite refuel_eq. repeat case_match; simpl; try lia.
    intros Hlt. left.
    match goal with Ht : stx_transfer _ _ _ _ _ = inr _ |- _ =>
      destruct (stx_transfer_decrease _ _ _ _ _ _ _ Ht Hlt) as [-> <-] end.
    split; [|done]. right. by do 2 eexists.
  - rewrite withdraw_eq. repeat case_match; simpl; try lia.
    intros Hlt. right.
    match goal with Ht : stx_transfer _ _ _ _ _ = inr _ |- _ =>
      destruct (stx_transfer_decrease _ _ _ _ _ _ _ Ht Hlt) as [-> _] end.
    split; [|done]. left. by eexists.
  - rewrite refund_eq. repeat case_match; simpl; try lia.
    intros Hlt. right.
    match goal with Ht : stx_transfer _ _ _ _ _ = inr _ |- _ =>
      destruct (stx_transfer_decrease _ _ _ _ _ _ _ Ht Hlt) as [-> _] end.
    split; [|done]. right. by eexists.
  - rewrite update_details_eq. repeat case_match; simpl; lia.
Qed.

End Ledger.

Lemma exec_debits_only_depositor_or_contract_witness :
  ((∃ r b t q, Refuel 0 5 = StreamTo r b t q)
   ∨ (∃ i a, Refuel 0 5 = Refuel i a))
  ∧ wallet_1 = contract_caller (caller_at wallet_1 3)
  ∧ wallet_1 = tx_sender (caller_at wallet_1 3)
  ∨ ((∃ i, Refuel 0 5 = Withdraw i) ∨ (∃ i, Refuel 0 5 = Refund i))
    ∧ wallet_1 = contract_self (caller_at wallet_1 3).
Proof.
  apply (exec_debits_only_depositor_or_contract (H:=ideal_crypto)
           (caller_at wallet_1 3) (Refuel 0 5) st_created wallet_1).
  vm_compute; reflexivity.
Defined.

(** ** Deposits *)

(** X11. A successful [stream-to] or [refuel] moves exactly the deposited
    amount from the caller's STX to the contract's: the caller is the
    transaction's sender, is not the contract, held at least the amount,
    and ends with that much less while the contract ends with that much
    more.  A deposit relayed by a caller that is not the transaction's
    sender is refused with [(err u4)]. *)
Theorem deposit_moves_stx_into_custody e st :
  (∀ r b t p v st', stream_to e r b t p st = (Success v, st') →
     contract_caller e = tx_sender e
     ∧ contract_caller e ≠ contract_self e
     ∧ b ≤ stx_balance (stx st) (contract_caller e)
     ∧ stx_balance (stx st') (contract_caller e)
       = stx_balance (stx st) (contract_caller e) - b
     ∧ stx_balance (stx st') (contract_self e)
       = stx_balance (stx st) (contract_self e) + b)
  ∧ (∀ i amount v st', refuel e i amount st = (Success v, st') →
       contract_caller e = tx_sender e
       ∧ contract_caller e ≠ contract_self e
       ∧ amount ≤ stx_balance (stx st) (contract_caller e)
       ∧ stx_balance (stx st') (contract_caller e)
         = stx_balance (stx st) (contract_caller e) - amount
       ∧ stx_balance (stx st') (contract_self e)
         = stx_balance (stx st) (contract_self e) + amount)
  ∧ (contract_caller e ≠ tx_sender e →
     contract_caller e ≠ contract_self e →
     (∀ r b t p, start_block t < stop_block t → 0 < b →
        stream_to e r b t p st = (Failure 4, st))
     ∧ (∀ i amount s, streams st !! i = Some s →
          contract_caller e = sender s → 0 < amount →
          refuel e i amount st = (Failure 4, st))).
Proof.
  split_and!.
  - intros r b t p v st'. rewrite stream_to_eq. intros Hr.
    repeat case_match; simplify_eq. simpl.
    match goal with Ht : stx_transfer _ _ _ _ _ = inr _ |- _ =>
      apply stx_transfer_inr in Ht as (_ & ? & ? & ? & ? & ?) end.
    done.
  - intros i amount v st'. rewrite refuel_eq. intros Hr.
    repeat case_match; simplify_eq. simpl.
    match goal with Ht : stx_transfer _ _ _ _ _ = inr _ |- _ =>
      apply stx_transfer_inr in Ht as (_ & ? & ? & ? & ? & ?) end.
    done.
  - intros Hrelay Hself.
    assert (∀ amount, 0 < amount →
              stx_transfer amount (contract_caller e) (contract_self e)
                (tx_sender e) (stx st) = inl 4) as Ht.
    { intros amount Hpos. unfold stx_transfer.
      destruct (N.eqb_spec amount 0); [lia|].
      destruct (decide (contract_caller e = contract_self e)); [done|].
      by destruct (decide (contract_caller e = tx_sender e)). }
    split.
    + intros r b t p Hlt Hb. rewrite stream_to_eq, Ht by done.
      apply N.ltb_lt in Hlt as ->. by apply N.ltb_lt in Hb as ->.
    + intros i amount s Hs Hc Hpos. rewrite refuel_eq, Hs, Ht by done.
      rewrite bool_decide_eq_true_2 by done.
      by apply N.ltb_lt in Hpos as ->.
Qed.

(** ** Refund *)

(** X12. A refund cannot be repeated.  On a stream with distinct sender
    and recipient and a timeframe that does not stop before it starts,
    after a successful [refund] the stored balance equals the amount
    vested over the whole timeframe, the sender's excess is zero at every
    later height, and a further [refund] by the sender fails with
    [(err u3)]. *)
Theorem refund_cannot_be_repeated e e' stream_id st st' s v :
  streams st !! stream_id = Some s →
  sender s ≠ recipient s →
  start_block (timeframe s) ≤ stop_block (timeframe s) →
  refund e stream_id st = (Success v, st') →
  stacks_block_height e ≤ stacks_block_height e' →
  contract_caller e' = sender s →
  balance <$> streams st' !! stream_id
    = Some ((stop_block (timeframe s) - start_block (timeframe s))
            * payment_per_block s)
  ∧ balance_of e' st' stream_id (sender s) = Val 0
  ∧ refund e' stream_id st' = (Failure 3, st').
Proof.
  intros Hs Hne Ht Hr Hh Hc'.
  rewrite refund_eq, Hs in Hr.
  rewrite (balance_of_sender _ _ _ s), (block_delta_closed_form e) in Hr
    by done.
  simpl in Hr.
  destruct (uint_mul _ _) as [rb|] eqn:Em; [|done]. simpl in Hr.
  destruct (uint_sub (balance s) rb) as [b|] eqn:Eb; [|done].
  case_bool_decide as Hc; [|done].
  destruct (N.ltb_spec (stop_block (timeframe s)) (stacks_block_height e))
    as [Hstop|]; [|done].
  destruct (uint_sub (balance s) b) as [b'|] eqn:Eb'; [|done].
  destruct (stx_transfer _ _ _ _ _) as [|l'] eqn:Etr; [done|].
  simplify_eq.
  apply uint_mul_Val in Em as [-> Hm].
  apply uint_sub_Val in Eb as [-> Hle].
  apply uint_sub_Val in Eb' as [-> _].
  replace (N.min (stacks_block_height e) (stop_block (timeframe s)))
    with (stop_block (timeframe s)) in * by lia.
  set (full := (stop_block (timeframe s) - start_block (timeframe s))
               * payment_per_block s) in *.
  assert (balance s - (balance s - full) = full) as Hfull by lia.
  set (st' := {| streams := _; latest_stream_id := _; stx := l' |}).
  assert (streams st' !! stream_id
          = Some (set_balance s (balance s - (balance s - full)))) as Hs'
    by (simpl; apply lookup_insert_eq).
  assert (balance_of e' st' stream_id (sender s) = Val 0) as Hb0.
  { rewrite (balance_of_sender _ _ _ _ Hs') by done. simpl.
    rewrite (block_delta_closed_form e') by done. simpl.
    replace (N.min (stacks_block_height e') (stop_block (timeframe s)))
      with (stop_block (timeframe s)) by lia.
    unfold uint_mul. fold full. apply N.leb_le in Hm as ->. simpl.
    rewrite Hfull. unfold uint_sub. rewrite N.leb_refl. f_equal. lia. }
  split_and!.
  - rewrite Hs'. simpl. by rewrite Hfull.
  - done.
  - rewrite refund_eq, Hs'. simpl sender. rewrite Hb0.
    rewrite bool_decide_eq_true_2 by done. simpl timeframe.
    assert ((stop_block (timeframe s) <? stacks_block_height e') = true) as ->
      by (apply N.ltb_lt; lia).
    simpl balance. unfold uint_sub at 1.
    assert ((0 <=? balance s - (balance s - full)) = true) as ->
      by (apply N.leb_le; lia).
    done.
Qed.

Lemma refund_cannot_be_repeated_witness :
  balance <$> streams st_refunded !! 0 = Some ((5 - 0) * 1)
  ∧ balance_of (caller_at wallet_1 9) st_refunded 0 wallet_1 = Val 0
  ∧ refund (caller_at wallet_1 9) 0 st_refunded = (Failure 3, st_refunded).
Proof.
  refine (refund_cannot_be_repeated (caller_at wallet_1 6)
            (caller_at wallet_1 9) 0 st_refuelled st_refunded
            (set_balance
               (new_stream (caller_at wallet_1 2) wallet_2 5 (tf 0 5) 1) 10)
            5 _ _ _ _ _ _).
  - vm_compute; reflexivity.
  - discriminate.
  - simpl. lia.
  - vm_compute; reflexivity.
  - simpl. lia.
  - reflexivity.
Defined.

(** ** Signatures *)

Section Signatures.
Context `{Crypto}.

Lemma validate_signature_true hash signature signer :
  validate_signature hash signature signer = true ↔
  ∃ pubkey, secp256k1_recover hash signature = Some pubkey
            ∧ principal_of pubkey = Some signer.
Proof.
  unfold validate_signature.
  destruct (secp256k1_recover hash signature) as [pk|].
  - rewrite bool_decide_eq_true. split.
    + intros Hp. by exists pk.
    + by intros (? & [= <-] & ?).
  - split; [done|]. by intros (? & ? & _).
Qed.

(** X13. A signature verifies for at most one signer, and on a stream
    with distinct sender and recipient it can be submitted by one caller
    only: if [update-details] accepts the same proposal and signature in
    two calls on the same state, both calls name the same signer and come
    from the same caller, the other party of the stream. *)
Theorem consent_has_one_signer_and_one_submitter
    e e' stream_id p t signer signer' signature st s v v' st1 st2 :
  streams st !! stream_id = Some s →
  sender s ≠ recipient s →
  update_details e stream_id p t signer signature st = (Success v, st1) →
  update_details e' stream_id p t signer' signature st = (Success v', st2) →
  signer = signer'
  ∧ contract_caller e = contract_caller e'
  ∧ contract_caller e ≠ signer
  ∧ dual_party s (contract_caller e) signer.
Proof.
  intros Hs Hne. rewrite !update_details_eq, Hs, !dual_party_decide.
  destruct (validate_signature _ _ signer) eqn:Hv; [|done].
  destruct (validate_signature _ _ signer') eqn:Hv'; [|done].
  case_bool_decide as Hd; [|done]. case_bool_decide as Hd'; [|done].
  intros _ _.
  apply validate_signature_true in Hv as (pk & Hr & Hp).
  apply validate_signature_true in Hv' as (pk' & Hr' & Hp').
  assert (signer = signer') as <- by congruence.
  unfold dual_party in *. split_and!; [done| | |done].
  - destruct Hd as [[? ?]|[? ?]], Hd' as [[? ?]|[? ?]]; congruence.
  - destruct Hd as [[? ?]|[? ?]]; congruence.
Qed.

End Signatures.

(** ** A cap on payouts *)

Section PayoutCap.
Context `{Crypto}.

(** X14. Without [update-details], a stream never pays its recipient more
    than its rate times the length of its timeframe: in every state
    reachable by [stream-to], [refuel], [withdraw] and [refund] calls the
    withdrawn balance is at most
    [(stop-block - start-block) * payment-per-block]. *)
Theorem withdrawn_capped_by_full_vesting st h i s :
  reachable not_update st h →
  streams st !! i = Some s →
  withdrawn_balance s
  ≤ (stop_block (timeframe s) - start_block (timeframe s))
    * payment_per_block s.
Proof.
  intros Hr Hs. apply reachable_vesting_invariant in Hr.
  destruct (Hr i s Hs) as [Hlt Hw].
  destruct (Hw {| tx_sender := sender s; contract_caller := sender s;
                  contract_self := sender s; stacks_block_height := h |}
               eq_refl) as (d & Hd & Hle).
  rewrite block_delta_closed_form in Hd by lia.
  injection Hd as <-. simpl in Hle.
  etrans; [exact Hle|]. apply N.mul_le_mono_r. lia.
Qed.

End PayoutCap.

Lemma consent_has_one_signer_and_one_submitter_witness :
  wallet_1 = wallet_1
  ∧ contract_caller (caller_at wallet_2 3) = contract_caller (caller_at wallet_2 7)
  ∧ contract_caller (caller_at wallet_2 3) ≠ wallet_1
  ∧ dual_party (new_stream (caller_at wallet_1 2) wallet_2 5 (tf 0 5) 1)
      (contract_caller (caller_at wallet_2 3)) wallet_1.
Proof.
  refine (consent_has_one_signer_and_one_submitter (H:=ideal_crypto)
            (caller_at wallet_2 3) (caller_at wallet_2 7) 0 1 (tf 0 4)
            wallet_1 wallet_1 (consent 1 st_created 0 1 (tf 0 4)) st_created
            (new_stream (caller_at wallet_1 2) wallet_2 5 (tf 0 5) 1)
            true true
            (update_details (H:=ideal_crypto) (caller_at wallet_2 3) 0 1
               (tf 0 4) wallet_1 (consent 1 st_created 0 1 (tf 0 4))
               st_created).2
            (update_details (H:=ideal_crypto) (caller_at wallet_2 7) 0 1
               (tf 0 4) wallet_1 (consent 1 st_created 0 1 (tf 0 4))
               st_created).2
            _ _ _ _).
  - vm_compute; reflexivity.
  - discriminate.
  - vm_compute; reflexivity.
  - vm_compute; reflexivity.
Defined.

Lemma withdrawn_capped_by_full_vesting_witness :
  streams st_withdrawn !! 0
    = Some (set_withdrawn_balance
              (new_stream (caller_at wallet_1 2) wallet_2 5 (tf 0 5) 1) 4)
  ∧ withdrawn_balance
      (set_withdrawn_balance
         (new_stream (caller_at wallet_1 2) wallet_2 5 (tf 0 5) 1) 4)
    ≤ (5 - 0) * 1.
Proof.
  split; [vm_compute; reflexivity|].
  refine (withdrawn_capped_by_full_vesting (H:=ideal_crypto) st_withdrawn 4 0
            (set_withdrawn_balance
               (new_stream (caller_at wallet_1 2) wallet_2 5 (tf 0 5) 1) 4)
            _ _).
  - change st_withdrawn
      with (exec (H:=ideal_crypto) (caller_at wallet_2 4) (Withdraw 0)
              st_created).
    apply reachable_call; [|reflexivity|reflexivity].
    apply (reachable_wait _ _ 2 4); [|lia].
    change st_created
      with (exec (H:=ideal_crypto) (caller_at wallet_1 2)
              (StreamTo wallet_2 5 (tf 0 5) 1) (deployed funded)).
    apply reachable_call; [constructor|reflexivity|reflexivity].
  - vm_compute; reflexivity.
Defined.

(** ** The consent digest over a history *)

Section ConsentHistory.
Context `{Crypto}.

(** Along any sequence of calls a stream stays in place with its parties,
    and its withdrawn balance does not decrease. *)
Lemma evolves_keeps_stream st st' i s :
  ids_sequential st →
  evolves st st' →
  streams st !! i = Some s →
  ∃ s', streams st' !! i = Some s'
        ∧ sender s' = sender s ∧ recipient s' = recipient s
        ∧ withdrawn_balance s ≤ withdrawn_balance s'.
Proof.
  intros Hseq Hev Hi.
  cut (ids_sequential st'
       ∧ ∃ s', streams st' !! i = Some s'
               ∧ sender s' = sender s ∧ recipient s' = recipient s
               ∧ withdrawn_balance s ≤ withdrawn_balance s'); [tauto|].
  induction Hev as [st|st st1 e c Hev IH].
  - split; [done|]. exists s. split_and!; done.
  - destruct (IH Hseq Hi) as (Hseq1 & s1 & H1 & Hsd & Hrc & Hw).
    split; [by apply ids_sequential_exec|].
    destruct (exec_keeps_stream e c st1 i s1 Hseq1 H1)
      as (s2 & H2 & Hsd2 & Hrc2 & Hw2).
    exists s2. split_and!; [done|congruence|congruence|lia].
Qed.

(** C10, as amended.  The consent digest is the SHA-256 hash of the
    serialization of the whole stored record followed by the proposed rate
    and timeframe, and for a fixed proposal two states give the same
    hashed bytes exactly when their records for the stream are equal in
    every field.  Hence each successful [refuel], [withdraw] or [refund],
    and each successful [update-details] that changes the rate or the
    timeframe, changes the bytes a consent signature has to cover
    relative to the state just before it, and after a successful
    [withdraw] they stay changed whatever is called next, because the
    withdrawn balance never decreases.  An [update-details] to the rate
    and timeframe the stream already has leaves the state as it was, and
    calls that bring the record back to an earlier value bring the hashed
    bytes back with it. *)
Theorem consent_digest_covers_whole_record st stream_id s p0 t0 :
  streams st !! stream_id = Some s →
  wf_stream s → p0 ≤ UINT_MAX → wf_timeframe t0 →
  hash_stream st stream_id p0 t0
    = sha256 ((serialize_stream s ++ serialize_uint p0)
                ++ serialize_timeframe t0)
  ∧ (∀ s', wf_stream s' → s' ≠ s →
       hash_stream_msg s' p0 t0 ≠ hash_stream_msg s p0 t0)
  ∧ (∀ st2 s2, streams st2 !! stream_id = Some s2 → wf_stream s2 →
       (consent_message st2 stream_id p0 t0
          = consent_message st stream_id p0 t0 ↔ s2 = s))
  ∧ (∀ e amount v st', refuel e stream_id amount st = (Success v, st') →
       consent_message st' stream_id p0 t0
         ≠ consent_message st stream_id p0 t0)
  ∧ (∀ e v st', withdraw e stream_id st = (Success v, st') →
       consent_message st' stream_id p0 t0
         ≠ consent_message st stream_id p0 t0)
  ∧ (∀ e v st', refund e stream_id st = (Success v, st') →
       consent_message st' stream_id p0 t0
         ≠ consent_message st stream_id p0 t0)
  ∧ (∀ e p t signer signature v st',
       p ≤ UINT_MAX → wf_timeframe t →
       update_details e stream_id p t signer signature st
         = (Success v, st') →
       (p ≠ payment_per_block s ∨ t ≠ timeframe s →
        consent_message st' stream_id p0 t0
          ≠ consent_message st stream_id p0 t0)
       ∧ (p = payment_per_block s → t = timeframe s → st' = st))
  ∧ (∀ e v st1 st2, ids_sequential st →
       withdraw e stream_id st = (Success v, st1) →
       evolves st1 st2 →
       (∀ s2, streams st2 !! stream_id = Some s2 → wf_stream s2) →
       consent_message st2 stream_id p0 t0
         ≠ consent_message st stream_id p0 t0).
Proof.
  intros Hs Hwf Hp0 Ht0.
  pose proof Hwf as (Hsd & Hrc & Hbl & Hwd & Hpp & Htf).
  split_and!.
  - by rewrite (hash_stream_lookup _ _ s).
  - intros s' Hwf' Hne Hm.
    apply hash_stream_msg_inj in Hm as (-> & _); done.
  - intros st2 s2 Hs2 Hwf2. unfold consent_message. rewrite Hs, Hs2. simpl.
    split; [|by intros ->]. intros Hm%(inj Some).
    by apply hash_stream_msg_inj in Hm as (-> & _).
  - intros e amount v st'. rewrite refuel_eq, Hs. intros Hr.
    repeat case_match; simplify_eq.
    match goal with Hu : uint_add _ _ = Val _ |- _ =>
      apply uint_add_Val in Hu as [-> Hle] end.
    match goal with Hu : stx_transfer _ _ _ _ _ = inr _ |- _ =>
      apply stx_transfer_inr_pos in Hu as Hpos end.
    apply (consent_message_changes st _ stream_id s
             (set_balance s (balance s + v))); try done.
    + simpl. apply lookup_insert_eq.
    + destruct s. unfold set_balance. simpl in *. intros [=]. lia.
  - intros e v st'. rewrite withdraw_eq, Hs. intros Hr.
    repeat case_match; simplify_eq.
    match goal with Hu : uint_add _ _ = Val _ |- _ =>
      apply uint_add_Val in Hu as [-> Hle] end.
    match goal with Hu : stx_transfer _ _ _ _ _ = inr _ |- _ =>
      apply stx_transfer_inr_pos in Hu as Hpos end.
    apply (consent_message_changes st _ stream_id s
             (set_withdrawn_balance s (withdrawn_balance s + v))); try done.
    + simpl. apply lookup_insert_eq.
    + destruct s. unfold set_withdrawn_balance. simpl in *. intros [=]. lia.
  - intros e v st'. rewrite refund_eq, Hs. intros Hr.
    repeat case_match; simplify_eq.
    match goal with Hu : uint_sub _ _ = Val _ |- _ =>
      apply uint_sub_Val in Hu as [-> Hle] end.
    match goal with Hu : stx_transfer _ _ _ _ _ = inr _ |- _ =>
      apply stx_transfer_inr_pos in Hu as Hpos end.
    apply (consent_message_changes st _ stream_id s
             (set_balance s (balance s - v))); try done.
    + simpl. apply lookup_insert_eq.
    + unfold wf_stream. simpl. split_and!; try done. lia.
    + destruct s. unfold set_balance. simpl in *. intros [=]. lia.
  - intros e p t signer signature v st' Hp Ht.
    rewrite update_details_eq, Hs. intros Hr.
    repeat case_match; simplify_eq. split.
    + intros Hch.
      apply (consent_message_changes st _ stream_id s (set_details s p t));
        try done.
      * simpl. apply lookup_insert_eq.
      * by apply set_details_changes.
    + intros -> ->. rewrite set_details_id, insert_id by done.
      by destruct st.
  - intros e v st1 st2 Hseq Hw Hev Hwf2.
    assert (ids_sequential st1) as Hseq1.
    { change st1 with (Success v, st1).2. rewrite <- Hw.
      apply (ids_sequential_exec e (Withdraw stream_id)), Hseq. }
    rewrite withdraw_eq, Hs in Hw.
    repeat case_match; simplify_eq.
    match goal with Hu : uint_add _ _ = Val _ |- _ =>
      apply uint_add_Val in Hu as [-> Hle] end.
    match goal with Hu : stx_transfer _ _ _ _ _ = inr _ |- _ =>
      apply stx_transfer_inr_pos in Hu as Hpos end.
    destruct (evolves_keeps_stream _ _ stream_id
                (set_withdrawn_balance s (withdrawn_balance s + v))
                Hseq1 Hev) as (s2 & Hs2 & _ & _ & Hw2).
    { simpl. apply lookup_insert_eq. }
    apply (consent_message_changes st st2 stream_id s s2); try done.
    + by apply Hwf2.
    + intros ->. simpl in Hw2. lia.
Qed.

End ConsentHistory.

Lemma consent_digest_covers_whole_record_witness :
  (consent_message st_refunded 0 2 (tf 0 9)
     = consent_message st_created 0 2 (tf 0 9)
   ↔ {| sender := wallet_1; recipient := wallet_2; balance := 5;
        withdrawn_balance := 0; payment_per_block := 1;
        timeframe := tf 0 5 |}
     = new_stream (caller_at wallet_1 2) wallet_2 5 (tf 0 5) 1)
  ∧ consent_message st_refuelled 0 2 (tf 0 9)
    ≠ consent_message st_created 0 2 (tf 0 9).
Proof.
  destruct (consent_digest_covers_whole_record (H:=ideal_crypto) st_created 0
              (new_stream (caller_at wallet_1 2) wallet_2 5 (tf 0 5) 1)
              2 (tf 0 9))
    as (_ & _ & Hiff & Hrefuel & _).
  - vm_compute; reflexivity.
  - solve_wf.
  - unfold UINT_MAX; lia.
  - solve_wf.
  - split.
    + apply Hiff; [vm_compute; reflexivity|solve_wf].
    + apply (Hrefuel (caller_at wallet_1 3) 5 5). vm_compute; reflexivity.
Defined.

(** A consent signed on the fresh stream 0 outlives a refuel of 5 followed,
    after the stop block, by a refund of 5: the record is back to what was
    signed, and [update-details] accepts the old signature. *)
Lemma consent_revived_by_refuel_then_refund :
  streams st_refunded !! 0 = streams st_created !! 0
  ∧ (update_details (H:=ideal_crypto) (caller_at wallet_1 7) 0 2 (tf 0 9)
       wallet_2 (consent 2 st_created 0 2 (tf 0 9)) st_refunded).1
    = Success true.
Proof. vm_compute. done. Qed.
